(** * Balanced vectors and the Fuglede spectral test

    A shallow embedding of [BalancedVectors.py] and [Fuglede.py], and the
    properties of their enumeration and filtering engine.

    Python integers are [Z]; an element of [FiniteField(p)] is its canonical
    representative in [[0, p)]; tuples and lists are [list]; the dictionary of
    [row_difference] is a [gmap]; exceptions are the [Raise] results of a small
    error monad. *)

From stdpp Require Import base numbers list list_numbers gmap.
From Stdlib Require Import ZArith Lia List Permutation.
Import ListNotations.
Local Open Scope Z_scope.

(** ** The fragment of the Python runtime the two files use *)
Module Py.

Inductive exn : Type :=
  | AssertionError
  | ZeroDivisionError
  | ValueError
  | IndexError
  | KeyError
  | TypeError.

Inductive result (A : Type) : Type :=
  | Ok (a : A)
  | Raise (e : exn).
Arguments Ok {A} a.
Arguments Raise {A} e.

(** Sequencing: an exception skips what follows. Written [x ← c; k]. *)
Definition bind {A B : Type} (k : A -> result B) (c : result A) : result B :=
  match c with
  | Ok a => k a
  | Raise e => Raise e
  end.

#[global] Instance result_bind : MBind result := @bind.
#[global] Instance result_ret : MRet result := @Ok.

(** [[f(x) for x in l]] where [f] may raise. *)
Fixpoint for_each {A B : Type} (f : A -> result B) (l : list A) : result (list B) :=
  match l with
  | [] => Ok []
  | x :: rest => y ← f x; ys ← for_each f rest; Ok (y :: ys)
  end.

(** [range(n)]: empty when [n <= 0]. *)
Definition range (n : Z) : list Z := seqZ 0 n.

(** [l[i]]: a negative index counts from the end, out of range raises. *)
Definition getitem {A : Type} (l : list A) (i : Z) : result A :=
  let j := if i <? 0 then i + Z.of_nat (length l) else i in
  if j <? 0 then Raise IndexError
  else match l !! Z.to_nat j with
       | Some x => Ok x
       | None => Raise IndexError
       end.

(** [l.count(x)] *)
Definition count (l : list Z) (x : Z) : Z := Z.of_nat (count_occ Z.eq_dec l x).

(** [x in l] on lists of tuples. *)
Definition contains (l : list (list Z)) (x : list Z) : bool :=
  bool_decide (x ∈ l).

(** [l.index(x)]: position of the first element equal to [x]. *)
Fixpoint index {A : Type} `{EqDecision A} (l : list A) (x : A) : result nat :=
  match l with
  | [] => Raise ValueError
  | y :: rest => if decide (y = x) then Ok 0%nat
                 else i ← index rest x; Ok (S i)
  end.

(** Every way of taking one position out of a list, by increasing position:
    the element taken and what is left. *)
Fixpoint picks {A : Type} (l : list A) : list (A * list A) :=
  match l with
  | [] => []
  | x :: rest => (x, rest) :: map (fun p => (fst p, x :: snd p)) (picks rest)
  end.

(** [itertools.permutations(l, r)] for [r >= 0]: the [r]-length arrangements
    of positions of [l], in lexicographic order of the positions. *)
Fixpoint arrangements {A : Type} (l : list A) (r : nat) : list (list A) :=
  match r with
  | O => [[]]
  | S r' => flat_map (fun p => map (cons (fst p)) (arrangements (snd p) r')) (picks l)
  end.

(** [itertools.permutations(l, r)]: a negative [r] raises [ValueError]. *)
Definition permutations {A : Type} (l : list A) (r : Z) : result (list (list A)) :=
  if r <? 0 then Raise ValueError else Ok (arrangements l (Z.to_nat r)).

(** [d[k]] on a dictionary with integer keys. *)
Definition dict_get (d : gmap Z Z) (k : Z) : result Z :=
  match d !! k with
  | Some v => Ok v
  | None => Raise KeyError
  end.

End Py.
Import Py.

(** ** The fragment of Sage the two files use *)
Module Sage.

(** Trial division. *)
Definition is_prime (n : Z) : bool :=
  (1 <? n) && forallb (fun d => negb (n mod d =? 0)) (seqZ 2 (n - 2)).

(** [FiniteField(modulus)], as the order of the field: with no generator
    name Sage accepts exactly the prime orders. *)
Definition FiniteField (modulus : Z) : result Z :=
  if is_prime modulus then Ok modulus else Raise ValueError.

(** The element of [FiniteField(p)] built from the integer [i]. *)
Definition field (p i : Z) : Z := i mod p.

(** Subtraction of two elements of [FiniteField(p)]. *)
Definition field_sub (p a b : Z) : Z := (a - b) mod p.

(** A vector over [FiniteField(vbase)]. *)
Record vector : Type := Vec {
  vbase : Z;
  coords : list Z
}.

(** A matrix over [FiniteField(base)], stored by rows. *)
Record matrix : Type := Mat {
  base : Z;
  nrows : nat;
  ncols : nat;
  entries : list (list Z)
}.

#[global] Instance vector_eq_dec : EqDecision vector.
Proof. solve_decision. Defined.
#[global] Instance matrix_eq_dec : EqDecision matrix.
Proof. solve_decision. Defined.

(** [M.transpose()] *)
Definition transpose (M : matrix) : matrix :=
  Mat (base M) (ncols M) (nrows M)
      (map (fun j => map (fun row => nth j row 0) (entries M)) (seq 0 (ncols M))).

(** [M[i]]: row [i] as a vector. *)
Definition row (M : matrix) (i : Z) : result vector :=
  r ← getitem (entries M) i; Ok (Vec (base M) r).

(** [M.columns()] *)
Definition columns (M : matrix) : list vector :=
  map (Vec (base M)) (entries (transpose M)).

(** [Matrix(v)]: the one-row matrix of a vector. *)
Definition Matrix (v : vector) : matrix :=
  Mat (vbase v) 1 (length (coords v)) [coords v].

(** [0 * v] *)
Definition zero_times (v : vector) : vector :=
  Vec (vbase v) (map (fun x => (0 * x) mod vbase v) (coords v)).

(** [u - v]: the two vectors must have one parent. *)
Definition vector_sub (u v : vector) : result vector :=
  if bool_decide (vbase u = vbase v) && bool_decide (length (coords u) = length (coords v))
  then Ok (Vec (vbase u) (zip_with (field_sub (vbase u)) (coords u) (coords v)))
  else Raise TypeError.

Definition dot (p : Z) (u v : list Z) : Z :=
  foldl (fun acc xy => (acc + fst xy * snd xy) mod p) 0 (zip u v).

(** [A * B] *)
Definition matrix_mul (A B : matrix) : result matrix :=
  if bool_decide (base A = base B) && bool_decide (ncols A = nrows B)
  then Ok (Mat (base A) (nrows A) (ncols B)
               (map (fun a => map (dot (base A) a) (entries (transpose B))) (entries A)))
  else Raise TypeError.

(** The shape and entries of a matrix of [MatrixSpace(FiniteField(p), r, c)]. *)
Definition in_matrix_space (p : Z) (r c : nat) (M : matrix) : Prop :=
  base M = p ∧ nrows M = r ∧ ncols M = c ∧ length (entries M) = r ∧
  Forall (fun row => length row = c ∧ Forall (fun x => 0 <= x < p) row) (entries M).

(** What Sage computes and the source only calls: the list of a matrix space
    over a finite field in Sage's iteration order, the row-reduced echelon
    form and the rank. *)
Class Matrices : Type := {
  MatrixSpace_list : Z -> nat -> nat -> list matrix;
  rref : matrix -> matrix;
  rank : matrix -> nat
}.

(** Iterating over a matrix space visits the matrices of that space, all of
    them. *)
Class MatricesLaws `{Matrices} : Prop := {
  MatrixSpace_sound : forall p r c M,
    In M (MatrixSpace_list p r c) -> in_matrix_space p r c M;
  MatrixSpace_complete : forall p r c M,
    in_matrix_space p r c M -> In M (MatrixSpace_list p r c)
}.

End Sage.
Import Sage.

(** ** BalancedVectors.py *)
Module BalancedVectors.

(** The instance attributes; [fld] is the order of [self.field]. *)
Record t : Type := mk {
  size : Z;
  modulus : Z;
  quotient : Z;
  fld : Z
}.

(** What the methods receive as a vector: a tuple, or the integer [0] that
    stands for the unbalanced vector. *)
Inductive value : Type :=
  | Unbalanced
  | Tuple (v : list Z).

(** [__init__]: [size % modulus] raises on a zero modulus, the assertion
    follows, then the attributes are set in order. [self.size/self.modulus] is
    the exact quotient once the assertion has passed. *)
Definition init (size modulus : Z) : result t :=
  r ← (if modulus =? 0 then Raise ZeroDivisionError else Ok (size mod modulus));
  _ ← (if r =? 0 then Ok tt else Raise AssertionError);
  let quotient := size / modulus in
  f ← FiniteField modulus;
  Ok (mk size modulus quotient f).

(** The loop of [is_balanced] over [range(self.modulus)]. *)
Fixpoint is_balanced_loop (quotient : Z) (V : list Z) (values : list Z) : bool :=
  match values with
  | [] => true
  | i :: rest => if negb (count V i =? quotient) then false
                 else is_balanced_loop quotient V rest
  end.

(** [is_balanced]: [list(vec)] raises [TypeError] on the integer [0]. *)
Definition is_balanced (self : t) (vec : value) : result bool :=
  match vec with
  | Unbalanced => Raise TypeError
  | Tuple V => Ok (is_balanced_loop (quotient self) V (range (modulus self)))
  end.

(** The loop of [elements]: [lis] holds the tuples already yielded; the result
    is the sequence of yields. *)
Fixpoint elements_loop (perms : list (list Z)) (lis : list (list Z)) : list (list Z) :=
  match perms with
  | [] => []
  | permutation :: rest =>
      if negb (contains lis permutation)
      then permutation :: elements_loop rest (lis ++ [permutation])
      else elements_loop rest lis
  end.

(** [elements], as the list of the tuples it yields. *)
Definition elements (self : t) : result (list (list Z)) :=
  perms ← permutations (map (field (fld self)) (range (size self))) (size self);
  Ok (elements_loop perms []).

(** The loop of [reducedelements]: [elem[0]] raises on an empty tuple. *)
Fixpoint reducedelements_loop (elems : list (list Z)) : result (list (list Z)) :=
  match elems with
  | [] => Ok []
  | elem :: rest =>
      x ← getitem elem 0;
      ys ← reducedelements_loop rest;
      Ok (if x =? 0 then elem :: ys else ys)
  end.

Definition reducedelements (self : t) : result (list (list Z)) :=
  elems ← elements self; reducedelements_loop elems.

(** [difference]: the test [vec0 == 0 or vec1 == 0] is true only of the
    integer [0], never of a tuple. *)
Definition difference (self : t) (vec0 vec1 : value) : result value :=
  match vec0, vec1 with
  | Unbalanced, _ => Ok Unbalanced
  | Tuple _, Unbalanced => Ok Unbalanced
  | Tuple v0, Tuple v1 =>
      dif ← for_each (fun i => a ← getitem v0 i; b ← getitem v1 i;
                                Ok (field_sub (fld self) a b))
                      (range (size self));
      b ← is_balanced self (Tuple dif);
      if (b : bool) then Ok (Tuple dif) else Ok Unbalanced
  end.

#[global] Instance value_eq_dec : EqDecision value.
Proof. solve_decision. Defined.

(** [action]: one pair [[x, self.difference(vec, x)]] for each element. *)
Definition action (self : t) (vec : value) : result (list (list Z * value)) :=
  elems ← elements self;
  for_each (fun x => d ← difference self vec (Tuple x); Ok (x, d)) elems.

(** [reducedaction]: the same over [reducedelements]. *)
Definition reducedaction (self : t) (vec : value) : result (list (list Z * value)) :=
  elems ← reducedelements self;
  for_each (fun x => d ← difference self vec (Tuple x); Ok (x, d)) elems.

(** What [pairact] prints: the message of the degenerate action, or the
    successive values of [vec2]. *)
Inductive trace : Type :=
  | Degenerate
  | Printed (vs : list value).

(** The [while vec2 != vec1] loop of [pairact], run for at most [fuel]
    iterations: [None] when the loop is still running after them. *)
Fixpoint pairact_loop (fuel : nat) (self : t) (vec0 vec1 vec2 : value)
  : result (option (list value)) :=
  match fuel with
  | O => Ok None
  | S fuel' =>
      if bool_decide (vec2 ≠ vec1) then
        next ← difference self vec0 vec2;
        rest ← pairact_loop fuel' self vec0 vec1 next;
        Ok (option_map (cons vec2) rest)
      else Ok (Some [])
  end.

(** [pairact]: [vec2 == 0] holds of the integer [0] only. *)
Definition pairact (fuel : nat) (self : t) (vec0 vec1 : value) : result (option trace) :=
  vec2 ← difference self vec0 vec1;
  match vec2 with
  | Unbalanced => Ok (Some Degenerate)
  | Tuple _ =>
      printed ← pairact_loop fuel self vec0 vec1 vec2;
      Ok (option_map Printed printed)
  end.

End BalancedVectors.

(** ** Fuglede.py *)
Module Fuglede.

Section Methods.
Context {sage : Matrices}.

(** The instance attributes the methods read; [fld] is the order of
    [self.field], [elements] the list of the points of the space. *)
Record t : Type := mk {
  modulus : Z;
  dimension : nat;
  fld : Z;
  elements : list matrix
}.

(** [__init__]; dimensions and sizes are [nat], a matrix space has no others. *)
Definition init (modulus : Z) (dimension : nat) : result t :=
  f ← FiniteField modulus;
  Ok (mk modulus dimension f (MatrixSpace_list f 1 dimension)).

(** The position in [self.elements] of column [i] of [elem]. *)
Definition column_index (self : t) (elem : matrix) (i : nat) : result nat :=
  c ← row (transpose elem) (Z.of_nat i);
  index (elements self) (Matrix c).

(** The inner loop of [subsets] over [range(size - 1)], with its [break]. *)
Fixpoint subsets_passing (self : t) (elem : matrix) (idx : list nat) : result bool :=
  match idx with
  | [] => Ok true
  | i :: rest =>
      a ← column_index self elem i;
      b ← column_index self elem (i + 1);
      if (b <=? a)%nat then Ok false else subsets_passing self elem rest
  end.

(** The outer loop of [subsets]; the result is the sequence of yields. *)
Fixpoint subsets_loop (self : t) (size : nat) (space : list matrix) : result (list matrix) :=
  match space with
  | [] => Ok []
  | elem :: rest =>
      passing ← subsets_passing self elem (seq 0 (size - 1));
      ys ← subsets_loop self size rest;
      Ok (if (passing : bool) then elem :: ys else ys)
  end.

Definition subsets (self : t) (size : nat) : result (list matrix) :=
  subsets_loop self size (MatrixSpace_list (fld self) (dimension self) size).

(** [elem.columns()[0] == 0 * elem.columns()[0]] *)
Definition first_column_zero (elem : matrix) : result bool :=
  c ← getitem (columns elem) 0;
  c' ← getitem (columns elem) 0;
  Ok (bool_decide (c = zero_times c')).

(** The condition of [firstsets]; [and] evaluates its operands in order. *)
Definition is_first (self : t) (size : nat) (elem : matrix) : result bool :=
  z ← first_column_zero elem;
  Ok ((z : bool) && bool_decide (rref elem = elem)
      && bool_decide (rank elem = Nat.min size (dimension self))).

(** A generator of the form [for elem in source: if cond(elem): yield(elem)]. *)
Fixpoint keep_if (cond : matrix -> result bool) (source : list matrix) : result (list matrix) :=
  match source with
  | [] => Ok []
  | elem :: rest =>
      c ← cond elem;
      ys ← keep_if cond rest;
      Ok (if (c : bool) then elem :: ys else ys)
  end.

Definition firstsets (self : t) (size : nat) : result (list matrix) :=
  source ← subsets self size; keep_if (is_first self size) source.

Definition secondsets (self : t) (size : nat) : result (list matrix) :=
  source ← subsets self size; keep_if first_column_zero source.

Definition loghadamard (self : t) (E B : matrix) : result matrix :=
  matrix_mul (transpose E) B.

(** The first loop of [row_difference]: [counters[i] = 0]. *)
Definition zero_counters (modulus : Z) : gmap Z Z :=
  foldl (fun counters i => <[i := 0]> counters) ∅ (range modulus).

(** The second loop: [entry] is used as a position of [difference_vector]. *)
Fixpoint tally (difference_vector : list Z) (todo : list Z) (counters : gmap Z Z)
  : result (gmap Z Z) :=
  match todo with
  | [] => Ok counters
  | entry :: rest =>
      value ← getitem difference_vector entry;
      n ← dict_get counters value;
      tally difference_vector rest (<[value := n + 1]> counters)
  end.

(** The third loop, over [range(self.modulus - 1)]. *)
Fixpoint counters_equal (counters : gmap Z Z) (idx : list Z) : result bool :=
  match idx with
  | [] => Ok true
  | i :: rest =>
      a ← dict_get counters i;
      b ← dict_get counters (i + 1);
      if negb (a =? b) then Ok false else counters_equal counters rest
  end.

Definition row_difference (self : t) (row0 row1 : vector) : result bool :=
  d ← vector_sub row0 row1;
  let difference_vector := coords d in
  counters ← tally difference_vector difference_vector (zero_counters (modulus self));
  counters_equal counters (range (modulus self - 1)).

(** What [runtest] prints: a failing pair of rows with their difference, or a
    pair of subsets with its log-Hadamard matrix. *)
Inductive line : Type :=
  | Failing (row0 row1 d : vector)
  | Found (E B H : matrix).

(** The loop of [runtest] over the pairs [(i, j)], with its [break]: the line
    printed for the first failing pair, if there is one. *)
Fixpoint first_failing (self : t) (H0 : matrix) (pairs : list (Z * Z)) : result (option line) :=
  match pairs with
  | [] => Ok None
  | (i, j) :: rest =>
      if bool_decide (i ≠ j) then
        row0 ← row H0 i;
        row1 ← row H0 j;
        ok ← row_difference self row0 row1;
        if (ok : bool) then first_failing self H0 rest
        else d ← vector_sub row0 row1; Ok (Some (Failing row0 row1 d))
      else first_failing self H0 rest
  end.

(** [[(i,j) for i in range(size) for j in range(size)]] *)
Definition index_pairs (size : nat) : list (Z * Z) :=
  flat_map (fun i => map (fun j => (i, j)) (range (Z.of_nat size))) (range (Z.of_nat size)).

(** The body of the two outer loops for one pair of subsets. *)
Definition test_pair (self : t) (size : nat) (elem0 elem1 : matrix) : result line :=
  H0 ← loghadamard self elem0 elem1;
  failing ← first_failing self H0 (index_pairs size);
  match failing with
  | Some l => Ok l
  | None => Ok (Found elem0 elem1 H0)
  end.

(** [runtest]: [S] is the module-level instance the two outer loops name,
    [self] the receiver. [S.secondsets(size)] is run again for each [elem0].
    The result is the sequence of printed lines; an exception ends the run. *)
Fixpoint runtest_loop (S self : t) (size : nat) (firsts : list matrix) : result (list line) :=
  match firsts with
  | [] => Ok []
  | elem0 :: rest =>
      seconds ← secondsets S size;
      ls ← for_each (test_pair self size elem0) seconds;
      ls' ← runtest_loop S self size rest;
      Ok (ls ++ ls')
  end.

Definition runtest (S self : t) (size : nat) : result (list line) :=
  firsts ← firstsets S size; runtest_loop S self size firsts.

End Methods.
End Fuglede.

(** ** An executable instance of the Sage interface

    Used to run the methods on small spaces. A matrix space over a finite
    field is listed by increasing weight (the sum of the entries) and, within
    one weight, with larger leading entries first; the echelon form is
    computed by Gauss-Jordan elimination. *)
Module Reference.

(** The tuples of length [n] over an alphabet, in the lexicographic order of
    the alphabet. *)
Fixpoint tuples {A : Type} (alphabet : list A) (n : nat) : list (list A) :=
  match n with
  | O => [[]]
  | S n' => flat_map (fun x => map (cons x) (tuples alphabet n')) alphabet
  end.

Definition sum_list (l : list Z) : Z := foldr Z.add 0 l.

Definition weight (rows : list (list Z)) : Z := sum_list (map sum_list rows).

Definition matrices (p : Z) (r c : nat) : list matrix :=
  let all := tuples (tuples (rev (range p)) c) r in
  map (Mat p r c)
      (flat_map (fun w => filter (fun rows => bool_decide (weight rows = w)) all)
                (range ((p - 1) * Z.of_nat (r * c) + 1))).

(** The inverse of a nonzero element of the prime field of order [p]. *)
Definition inverse (p a : Z) : Z := a ^ (p - 2) mod p.

Definition scale (p k : Z) (v : list Z) : list Z :=
  map (fun x => (k * x) mod p) v.

(** [v - k * pivot] *)
Definition eliminate (p : Z) (j : nat) (pivot v : list Z) : list Z :=
  zip_with (fun x y => (y - nth j v 0 * x) mod p) pivot v.

(** The first row with a nonzero entry in column [j], with the rows before
    and after it. *)
Fixpoint find_pivot (j : nat) (rows : list (list Z))
  : option (list (list Z) * list Z * list (list Z)) :=
  match rows with
  | [] => None
  | v :: rest =>
      if nth j v 0 =? 0
      then match find_pivot j rest with
           | Some (before, pivot, after) => Some (v :: before, pivot, after)
           | None => None
           end
      else Some ([], v, rest)
  end.

(** Gauss-Jordan elimination, one column at a time: [done] holds the pivot
    rows found so far, [todo] the rows with no pivot yet. *)
Fixpoint gauss_jordan (p : Z) (cols : list nat) (done todo : list (list Z)) : list (list Z) :=
  match cols with
  | [] => done ++ todo
  | j :: cols' =>
      match find_pivot j todo with
      | None => gauss_jordan p cols' done todo
      | Some (before, pivot, after) =>
          let pivot' := scale p (inverse p (nth j pivot 0)) pivot in
          gauss_jordan p cols'
            (map (eliminate p j pivot') done ++ [pivot'])
            (map (eliminate p j pivot') (before ++ after))
      end
  end.

Definition echelon (M : matrix) : matrix :=
  Mat (base M) (nrows M) (ncols M)
      (gauss_jordan (base M) (seq 0 (ncols M)) [] (entries M)).

Definition nonzero_rows (M : matrix) : nat :=
  length (filter (fun v => negb (forallb (Z.eqb 0) v)) (entries M)).

#[global] Instance sage : Matrices := {|
  MatrixSpace_list := matrices;
  rref := echelon;
  rank := fun M => nonzero_rows (echelon M)
|}.

End Reference.

(** ** Two subsets of the space of the demonstration, [SubsetPairs(2, 3)] *)
Module Demo.

(** The first-type subset of size 4 of the space of dimension 3 over
    [FiniteField(2)]: the zero point and the standard basis. *)
Definition E4 : matrix :=
  Mat 2 3 4 [[0; 1; 0; 0];
             [0; 0; 1; 0];
             [0; 0; 0; 1]].

(** A second-type subset: the zero point and the three points with two
    ones. *)
Definition B4 : matrix :=
  Mat 2 3 4 [[0; 1; 1; 0];
             [0; 1; 0; 1];
             [0; 0; 1; 1]].

End Demo.

(** ** The properties the specification states, in its own words *)
Module Spec.

(** A balanced vector: length [size], entries among the [modulus] ring
    values, each value appearing exactly [size/modulus] times. *)
Definition balanced (size modulus : Z) (v : list Z) : Prop :=
  Z.of_nat (length v) = size ∧
  Forall (fun x => 0 <= x < modulus) v ∧
  forall x, 0 <= x < modulus -> count v x = size / modulus.

(** The columns of a subset are strictly increasing in the enumeration order
    of the points: [index(column[i]) < index(column[i+1])]; [index] gives the
    position of column [i] among the points. *)
Definition increasing_columns (size : nat) (index : nat -> result nat) : Prop :=
  forall i, (i + 1 < size)%nat ->
    exists a b, index i = Ok a ∧ index (i + 1)%nat = Ok b ∧ (a < b)%nat.

(** The first column of a subset is the zero point. *)
Definition first_column_is_zero (M : matrix) : Prop :=
  exists c, head (columns M) = Some c ∧ Forall (fun x => x = 0) (coords c).

(** The entries of a difference vector tallied into [modulus] buckets by
    their ring value give equal bucket counts. *)
Definition equal_tallies (modulus : Z) (d : list Z) : Prop :=
  forall x y, 0 <= x < modulus -> 0 <= y < modulus -> count d x = count d y.

(** What the second loop of [row_difference] tallies: for each entry of the
    difference vector, the entry found at the position the entry names. *)
Definition indexed_by_itself (d : list Z) : list Z :=
  map (fun entry => nth (Z.to_nat entry) d 0) d.

End Spec.

(** * Properties *)

(** ** The error monad and the runtime *)

Ltac run := unfold mbind, result_bind in *; cbn [bind] in *.

Lemma for_each_map {A B : Type} (f : A -> result B) (g : A -> B) (l : list A) :
  (forall x, In x l -> f x = Ok (g x)) -> for_each f l = Ok (map g l).
Proof.
  induction l as [|x l IH]; intros Hf; cbn [for_each map]; [reflexivity|].
  rewrite (Hf x) by (left; reflexivity). run.
  rewrite IH by (intros y Hy; apply Hf; right; exact Hy). reflexivity.
Qed.

Lemma getitem_lookup {A : Type} (l : list A) (i : nat) (x : A) :
  l !! i = Some x -> getitem l (Z.of_nat i) = Ok x.
Proof.
  intros Hx. unfold getitem.
  destruct (Z.ltb_spec (Z.of_nat i) 0) as [Hneg|_]; [lia|].
  destruct (Z.ltb_spec (Z.of_nat i) 0) as [Hneg|_]; [lia|].
  rewrite Nat2Z.id, Hx. reflexivity.
Qed.

Lemma In_range (n x : Z) : In x (range n) <-> 0 <= x < n.
Proof. rewrite <- list_elem_of_In. unfold range. rewrite elem_of_seqZ. lia. Qed.

Lemma picks_spec {A : Type} (l : list A) (x : A) (rest : list A) :
  In (x, rest) (picks l) <-> exists l1 l2, l = l1 ++ x :: l2 ∧ rest = l1 ++ l2.
Proof.
  revert x rest. induction l as [|a l IH]; intros x rest; cbn [picks].
  - split; [intros []|]. intros (l1 & l2 & Hl & _). destruct l1; discriminate.
  - split.
    + intros [Heq|Hin].
      * injection Heq as -> ->. exists [], rest. split; reflexivity.
      * apply in_map_iff in Hin as ([y r] & Heq & Hin). cbn in Heq.
        injection Heq as -> <-. apply IH in Hin as (l1 & l2 & -> & ->).
        exists (a :: l1), l2. split; reflexivity.
    + intros (l1 & l2 & Hl & ->). destruct l1 as [|b l1]; cbn in Hl.
      * injection Hl as -> ->. left. reflexivity.
      * injection Hl as -> ->. right. apply in_map_iff.
        exists (x, l1 ++ l2). split; [reflexivity|].
        apply IH. exists l1, l2. split; reflexivity.
Qed.

(** [itertools.permutations(l, len(l))] lists the rearrangements of [l], and
    nothing else. *)
Lemma arrangements_spec {A : Type} (r : nat) (l v : list A) :
  length l = r -> In v (arrangements l r) <-> Permutation l v.
Proof.
  revert l v. induction r as [|r IH]; intros l v Hlen; cbn [arrangements].
  - destruct l; [|discriminate]. split.
    + intros [<-|[]]. constructor.
    + intros Hp. apply Permutation_nil in Hp. left. symmetry. exact Hp.
  - rewrite in_flat_map. split.
    + intros ([x rest] & Hpick & Hin). cbn [fst snd] in Hin.
      apply in_map_iff in Hin as (v' & <- & Hin).
      apply picks_spec in Hpick as (l1 & l2 & -> & ->).
      apply IH in Hin.
      * rewrite <- Hin. symmetry. apply Permutation_middle.
      * rewrite length_app in *. cbn [length] in Hlen. lia.
    + intros Hp. destruct v as [|x v'].
      * apply Permutation_sym, Permutation_nil in Hp. subst l. discriminate.
      * assert (Hx : In x l).
        { eapply Permutation_in; [symmetry; exact Hp|]. left. reflexivity. }
        apply in_split in Hx as (l1 & l2 & ->).
        exists (x, l1 ++ l2). split.
        -- apply picks_spec. exists l1, l2. split; reflexivity.
        -- cbn [fst snd]. apply in_map. apply IH.
           ++ rewrite length_app in *. cbn [length] in Hlen. lia.
           ++ apply Permutation_cons_inv with (a := x).
              rewrite <- Hp. apply Permutation_middle.
Qed.

(** ** Counting in the list the permutations are taken of *)

Lemma count_occ_range (m x : Z) :
  count_occ Z.eq_dec (range m) x = if (0 <=? x) && (x <? m) then 1%nat else 0%nat.
Proof.
  destruct (Z.leb_spec 0 x) as [H0|H0]; cbn [andb].
  - destruct (Z.ltb_spec x m) as [H1|H1].
    + apply NoDup_count_occ'; [apply NoDup_ListNoDup, NoDup_seqZ|]. apply In_range. lia.
    + apply count_occ_not_In. rewrite In_range. lia.
  - apply count_occ_not_In. rewrite In_range. lia.
Qed.

Lemma field_block (m k : Z) :
  0 < m -> map (field m) (seqZ (k * m) m) = range m.
Proof.
  intros Hm. unfold range.
  replace (seqZ (k * m) m) with (map (Z.add (k * m)) (seqZ 0 m)).
  - rewrite map_map. rewrite <- (map_id (seqZ 0 m)) at 2.
    apply map_ext_in. intros i Hi. apply (In_range m) in Hi. unfold field.
    rewrite Z.add_comm, Z_mod_plus_full. apply Z.mod_small. exact Hi.
  - replace (k * m) with (k * m + 0) at 2 by lia.
    rewrite <- (fmap_add_seqZ (k * m) 0 m). reflexivity.
Qed.

Lemma count_occ_base (m : Z) (q : nat) (x : Z) :
  0 < m ->
  count_occ Z.eq_dec (map (field m) (range (Z.of_nat q * m))) x
  = if (0 <=? x) && (x <? m) then q else 0%nat.
Proof.
  intros Hm. induction q as [|q IH].
  - cbn. destruct ((0 <=? x) && (x <? m)); reflexivity.
  - unfold range in *.
    replace (Z.of_nat (S q) * m) with (Z.of_nat q * m + m) by lia.
    rewrite seqZ_app by nia. rewrite map_app, count_occ_app, IH.
    rewrite Z.add_0_l, field_block by exact Hm. rewrite count_occ_range.
    destruct ((0 <=? x) && (x <? m)); lia.
Qed.

Lemma field_range (m i : Z) : 0 < m -> 0 <= field m i < m.
Proof. intros Hm. unfold field. apply Z.mod_pos_bound. exact Hm. Qed.

(** The rearrangements of [[field(i) for i in range(size)]] are the balanced
    vectors. *)
Lemma balanced_iff_rearranged (size m : Z) (v : list Z) :
  0 < m -> 0 <= size -> size mod m = 0 ->
  Permutation (map (field m) (range size)) v <-> Spec.balanced size m v.
Proof.
  intros Hm Hsize Hdiv.
  assert (Hq : size = Z.of_nat (Z.to_nat (size / m)) * m).
  { rewrite Z2Nat.id by (apply Z.div_pos; lia).
    rewrite (Z.div_mod size m) at 1 by lia. lia. }
  assert (Hbase : forall x, count_occ Z.eq_dec (map (field m) (range size)) x
                  = if (0 <=? x) && (x <? m) then Z.to_nat (size / m) else 0%nat).
  { intros x. rewrite Hq at 1. apply count_occ_base. exact Hm. }
  split.
  - intros Hp. repeat split.
    + rewrite <- (Permutation_length Hp), length_map. unfold range.
      rewrite length_seqZ. lia.
    + eapply Permutation_Forall; [exact Hp|]. apply Forall_forall.
      intros x Hx. apply in_map_iff in Hx as (i & <- & _).
      apply field_range. exact Hm.
    + intros x Hx. unfold count.
      rewrite <- (proj1 (Permutation_count_occ Z.eq_dec _ _) Hp x), Hbase.
      destruct (Z.leb_spec 0 x); [|lia]. destruct (Z.ltb_spec x m); [|lia].
      cbn [andb]. rewrite Z2Nat.id by (apply Z.div_pos; lia). reflexivity.
  - intros (Hlen & Hall & Hcount). apply (Permutation_count_occ Z.eq_dec).
    intros x. rewrite Hbase.
    destruct (Z.leb_spec 0 x) as [H0|H0]; cbn [andb].
    + destruct (Z.ltb_spec x m) as [H1|H1].
      * specialize (Hcount x (conj H0 H1)). unfold count in Hcount. lia.
      * symmetry. apply count_occ_not_In. intros Hin.
        rewrite Forall_forall in Hall. apply Hall in Hin. lia.
    + symmetry. apply count_occ_not_In. intros Hin.
      rewrite Forall_forall in Hall. apply Hall in Hin. lia.
Qed.

(** ** BalancedVectors *)
Module BalancedVectorsFacts.
Import BalancedVectors.

Lemma contains_spec (lis : list (list Z)) (v : list Z) :
  contains lis v = true <-> In v lis.
Proof. unfold contains. rewrite bool_decide_eq_true. apply list_elem_of_In. Qed.

(** The loop of [elements] yields each tuple of [perms] not yet in [lis],
    once. *)
Lemma elements_loop_spec (perms lis : list (list Z)) :
  NoDup (elements_loop perms lis) ∧
  forall v, In v (elements_loop perms lis) <-> In v perms ∧ ¬ In v lis.
Proof.
  revert lis. induction perms as [|p rest IH]; intros lis; cbn [elements_loop].
  - split; [constructor|]. intros v. cbn. tauto.
  - destruct (contains lis p) eqn:Hc; cbn [negb].
    + apply contains_spec in Hc. destruct (IH lis) as [Hnd Hin].
      split; [exact Hnd|]. intros v. rewrite Hin. cbn [In].
      split; [tauto|]. intros [[<-|Hv] Hn]; tauto.
    + assert (Hp : ¬ In p lis).
      { intros Hin. apply contains_spec in Hin. congruence. }
      destruct (IH (lis ++ [p])) as [Hnd Hin]. split.
      * constructor; [|exact Hnd]. rewrite Hin, in_app_iff. cbn. tauto.
      * intros v. cbn [In]. rewrite Hin, in_app_iff. cbn [In].
        destruct (decide (p = v)) as [<-|Hne]; tauto.
Qed.

Lemma init_Ok (size modulus : Z) (self : t) :
  init size modulus = Ok self ->
  1 < modulus ∧ size mod modulus = 0 ∧
  self = mk size modulus (size / modulus) modulus.
Proof.
  unfold init, FiniteField, is_prime. run.
  destruct (Z.eqb_spec modulus 0) as [|Hm]; [discriminate|]. cbn [bind].
  destruct (Z.eqb_spec (size mod modulus) 0) as [Hr|]; [|discriminate]. cbn [bind].
  destruct (Z.ltb_spec 1 modulus) as [H1|]; [|discriminate]. cbn [andb].
  destruct (forallb _ _); [|discriminate]. cbn [bind].
  intros [= <-]. auto.
Qed.

Lemma is_balanced_loop_spec (q : Z) (V vals : list Z) :
  is_balanced_loop q V vals = true <-> forall i, In i vals -> count V i = q.
Proof.
  induction vals as [|i rest IH]; cbn [is_balanced_loop].
  - split; [intros _ i []|reflexivity].
  - destruct (Z.eqb_spec (count V i) q) as [Heq|Hne]; cbn [negb].
    + rewrite IH. split.
      * intros Hall j [<-|Hj]; [exact Heq|apply Hall, Hj].
      * intros Hall j Hj. apply Hall. right. exact Hj.
    + split; [discriminate|]. intros Hall. exfalso. apply Hne, Hall.
      left. reflexivity.
Qed.

Lemma is_balanced_loop_forallb (q : Z) (V vals : list Z) :
  is_balanced_loop q V vals = forallb (fun i => count V i =? q) vals.
Proof.
  induction vals as [|i rest IH]; cbn [is_balanced_loop forallb]; [reflexivity|].
  rewrite IH. destruct (count V i =? q); reflexivity.
Qed.

(** Counts that all equal [q] fix the length of a sequence of ring elements. *)
Lemma equal_counts_length (m q : Z) (v : list Z) :
  0 < m -> Forall (fun x => 0 <= x < m) v ->
  (forall i, 0 <= i < m -> count v i = q) ->
  Z.of_nat (length v) = m * q.
Proof.
  intros Hm Hall Hcount.
  assert (Hq : 0 <= q).
  { rewrite <- (Hcount 0) by lia. unfold count. lia. }
  assert (Hmod : (q * m) mod m = 0) by apply Z_mod_mult.
  assert (Hb : Spec.balanced (q * m) m v).
  { split; [|split; [exact Hall|]].
    - cut (Permutation (map (field m) (range (q * m))) v).
      + intros Hp. rewrite <- (Permutation_length Hp), length_map.
        unfold range. rewrite length_seqZ. nia.
      + apply (Permutation_count_occ Z.eq_dec). intros x.
        rewrite <- (Z2Nat.id q) at 1 by exact Hq. rewrite count_occ_base by exact Hm.
        destruct (Z.leb_spec 0 x) as [H0|H0]; cbn [andb].
        * destruct (Z.ltb_spec x m) as [H1|H1].
          -- specialize (Hcount x (conj H0 H1)). unfold count in Hcount. lia.
          -- symmetry. apply count_occ_not_In. intros Hin.
             rewrite Forall_forall in Hall. apply Hall in Hin. lia.
        * symmetry. apply count_occ_not_In. intros Hin.
          rewrite Forall_forall in Hall. apply Hall in Hin. lia.
    - intros x Hx. rewrite Z.div_mul by lia. apply Hcount, Hx. }
  destruct Hb as [Hlen _]. lia.
Qed.

Lemma is_balanced_mismatch (self : t) (v : list Z) :
  0 < modulus self ->
  Forall (fun x => 0 <= x < modulus self) v ->
  Z.of_nat (length v) ≠ modulus self * quotient self ->
  is_balanced self (Tuple v) = Ok false.
Proof.
  intros Hm Hall Hlen. cbn [is_balanced]. f_equal.
  destruct (is_balanced_loop _ _ _) eqn:Hloop; [|reflexivity].
  exfalso. apply Hlen. apply equal_counts_length; [exact Hm|exact Hall|].
  intros i Hi. rewrite is_balanced_loop_spec in Hloop. apply Hloop, In_range, Hi.
Qed.

Lemma getitem_nth {A : Type} (l : list A) (i : Z) (d : A) :
  0 <= i < Z.of_nat (length l) -> getitem l i = Ok (nth (Z.to_nat i) l d).
Proof.
  intros Hi. rewrite <- (Z2Nat.id i) at 1 by lia. apply getitem_lookup.
  rewrite nth_lookup. destruct (lookup_lt_is_Some_2 l (Z.to_nat i)) as [x ->]; [lia|].
  reflexivity.
Qed.

Lemma map_nth_zip_with (f : Z -> Z -> Z) (v0 v1 : list Z) (k : Z) :
  length v0 = length v1 ->
  map (fun i => f (nth (Z.to_nat (i - k)) v0 0) (nth (Z.to_nat (i - k)) v1 0))
      (seqZ k (Z.of_nat (length v0)))
  = zip_with f v0 v1.
Proof.
  revert v1 k. induction v0 as [|a v0 IH]; intros [|b v1] k Hlen; try discriminate.
  - reflexivity.
  - cbn [length] in *. rewrite seqZ_cons by lia. cbn [map zip_with].
    rewrite Z.sub_diag. cbn [Z.to_nat nth]. f_equal.
    replace (Z.pred (Z.of_nat (S (length v0)))) with (Z.of_nat (length v0)) by lia.
    rewrite <- (IH v1 (Z.succ k)) by lia.
    apply map_ext_in. intros i Hi. apply list_elem_of_In, elem_of_seqZ in Hi.
    replace (Z.to_nat (i - k)) with (S (Z.to_nat (i - Z.succ k))) by lia.
    reflexivity.
Qed.

(** The comprehension of [difference] on two tuples of length [size]. *)
Lemma difference_vector (self : t) (v0 v1 : list Z) :
  Z.of_nat (length v0) = size self -> Z.of_nat (length v1) = size self ->
  for_each (fun i => a ← getitem v0 i; b ← getitem v1 i; Ok (field_sub (fld self) a b))
           (range (size self))
  = Ok (zip_with (field_sub (fld self)) v0 v1).
Proof.
  intros H0 H1.
  rewrite <- (map_nth_zip_with (field_sub (fld self)) v0 v1 0) by lia.
  rewrite H0. apply for_each_map. intros i Hi. apply In_range in Hi.
  rewrite (getitem_nth v0 i 0), (getitem_nth v1 i 0) by lia. run.
  rewrite Z.sub_0_r. reflexivity.
Qed.

Lemma is_balanced_balanced (size modulus : Z) (self : t) (v : list Z) :
  init size modulus = Ok self ->
  Z.of_nat (length v) = size -> Forall (fun x => 0 <= x < modulus) v ->
  is_balanced self (Tuple v) = Ok true <-> Spec.balanced size modulus v.
Proof.
  intros Hinit Hlen Hall. apply init_Ok in Hinit as (Hm & Hdiv & ->).
  cbn [is_balanced BalancedVectors.modulus quotient].
  split.
  - intros [= Hloop]. rewrite is_balanced_loop_spec in Hloop.
    split; [exact Hlen|split; [exact Hall|]]. intros x Hx. apply Hloop, In_range, Hx.
  - intros (_ & _ & Hcount). f_equal. apply is_balanced_loop_spec.
    intros i Hi. apply Hcount, In_range, Hi.
Qed.

Lemma zip_with_sub_range (m : Z) (v0 v1 : list Z) :
  0 < m -> Forall (fun x => 0 <= x < m) (zip_with (field_sub m) v0 v1).
Proof.
  intros Hm. revert v1. induction v0 as [|a v0 IH]; intros [|b v1]; cbn; constructor.
  - unfold field_sub. apply Z.mod_pos_bound, Hm.
  - apply IH.
Qed.

(** C1. For a configuration the constructor accepts, with a non-negative
    size, [elements()] yields exactly the balanced vectors of length [size]
    over the ring (each of the [modulus] values [size/modulus] times), none of
    them twice; for [size = 4], [modulus = 2] these are the six arrangements
    of [(0,0,1,1)]. *)
Theorem elements_exactly_balanced (size modulus : Z) (self : t) :
  init size modulus = Ok self -> 0 <= size ->
  exists l, elements self = Ok l ∧ List.NoDup l ∧
    (forall v, In v l <-> Spec.balanced size modulus v) ∧
    (size = 4 -> modulus = 2 ->
     l = [[0;1;0;1]; [0;1;1;0]; [0;0;1;1]; [1;0;0;1]; [1;0;1;0]; [1;1;0;0]]).
Proof.
  intros Hinit Hsize. apply init_Ok in Hinit as (Hm & Hdiv & ->).
  unfold elements, permutations. cbn [BalancedVectors.size fld].
  destruct (Z.ltb_spec size 0) as [|_]; [lia|]. run.
  eexists. split; [reflexivity|].
  destruct (elements_loop_spec
              (arrangements (map (field modulus) (range size)) (Z.to_nat size)) [])
    as [Hnd Hin].
  split; [exact Hnd|]. split.
  - intros v. rewrite Hin. rewrite arrangements_spec.
    + rewrite balanced_iff_rearranged by lia. cbn [In]. tauto.
    + rewrite length_map. unfold range. apply length_seqZ.
  - intros -> ->. vm_compute. reflexivity.
Qed.

Lemma elements_exactly_balanced_witness :
  exists l, elements (mk 4 2 2 2) = Ok l ∧ List.NoDup l ∧
    (forall v, In v l <-> Spec.balanced 4 2 v) ∧
    l = [[0;1;0;1]; [0;1;1;0]; [0;0;1;1]; [1;0;0;1]; [1;0;1;0]; [1;1;0;0]].
Proof.
  destruct (elements_exactly_balanced 4 2 (mk 4 2 2 2)) as (l & He & Hnd & Hin & Hl);
    [reflexivity|lia|].
  exists l. split; [exact He|]. split; [exact Hnd|]. split; [exact Hin|].
  apply Hl; reflexivity.
Defined.

(** On two tuples of length [size], [difference] returns their component-wise
    difference when that is balanced and the sentinel when it is not. *)
Lemma difference_cases (size modulus : Z) (self : t) (v0 v1 : list Z) :
  init size modulus = Ok self ->
  Z.of_nat (length v0) = size -> Z.of_nat (length v1) = size ->
  let dif := zip_with (field_sub modulus) v0 v1 in
  (Spec.balanced size modulus dif ->
   difference self (Tuple v0) (Tuple v1) = Ok (Tuple dif)) ∧
  (¬ Spec.balanced size modulus dif ->
   difference self (Tuple v0) (Tuple v1) = Ok Unbalanced).
Proof.
  intros Hinit H0 H1 dif.
  pose proof (init_Ok _ _ _ Hinit) as (Hm & Hdiv & Hself).
  assert (Hdif : difference self (Tuple v0) (Tuple v1)
                 = b ← is_balanced self (Tuple dif);
                   if (b : bool) then Ok (Tuple dif) else Ok Unbalanced).
  { cbn [difference]. rewrite difference_vector by (subst self; assumption).
    subst self. reflexivity. }
  assert (Hlen : Z.of_nat (length dif) = size).
  { unfold dif. rewrite length_zip_with. lia. }
  pose proof (is_balanced_balanced size modulus self dif Hinit Hlen
                (zip_with_sub_range modulus v0 v1 ltac:(lia))) as Hiff.
  rewrite Hdif. destruct (is_balanced self (Tuple dif)) as [[|]|e] eqn:Hb; run.
  - split; [reflexivity|]. intros Hn. exfalso. apply Hn, Hiff. reflexivity.
  - split; [|reflexivity]. intros Hbal. apply Hiff in Hbal. discriminate.
  - subst self. discriminate.
Qed.

(** C6. [difference] absorbs the unbalanced sentinel on either side, and on
    two vectors of the space it returns their component-wise difference when
    that is balanced and the sentinel when it is not. *)
Theorem difference_total (size modulus : Z) (self : t) :
  init size modulus = Ok self ->
  (forall x, difference self Unbalanced x = Ok Unbalanced) ∧
  (forall x, difference self x Unbalanced = Ok Unbalanced) ∧
  (forall v0 v1, Z.of_nat (length v0) = size -> Z.of_nat (length v1) = size ->
     let dif := zip_with (field_sub modulus) v0 v1 in
     (Spec.balanced size modulus dif ->
      difference self (Tuple v0) (Tuple v1) = Ok (Tuple dif)) ∧
     (¬ Spec.balanced size modulus dif ->
      difference self (Tuple v0) (Tuple v1) = Ok Unbalanced)).
Proof.
  intros Hinit. split; [reflexivity|]. split; [intros [|v]; reflexivity|].
  intros v0 v1 H0 H1. apply difference_cases; assumption.
Qed.

Lemma balanced_0_1_1_0 : Spec.balanced 4 2 [0; 1; 1; 0].
Proof.
  split; [reflexivity|]. split.
  - repeat constructor; lia.
  - intros x Hx. assert (x = 0 ∨ x = 1) as [-> | ->] by lia; reflexivity.
Qed.

Lemma difference_total_witness :
  difference (mk 4 2 2 2) Unbalanced (Tuple [0; 0; 1; 1]) = Ok Unbalanced ∧
  difference (mk 4 2 2 2) (Tuple [0; 0; 1; 1]) Unbalanced = Ok Unbalanced ∧
  difference (mk 4 2 2 2) (Tuple [0; 0; 1; 1]) (Tuple [0; 1; 0; 1])
  = Ok (Tuple [0; 1; 1; 0]).
Proof.
  destruct (difference_total 4 2 (mk 4 2 2 2) eq_refl) as (Hleft & Hright & Hboth).
  split; [apply Hleft|]. split; [apply Hright|].
  destruct (Hboth [0; 0; 1; 1] [0; 1; 0; 1] eq_refl eq_refl) as [Hbal _].
  apply Hbal. exact balanced_0_1_1_0.
Defined.

Lemma difference_self_zero (m : Z) (v : list Z) :
  0 < m -> zip_with (field_sub m) v v = map (fun _ => 0) v.
Proof.
  intros Hm. induction v as [|a v IH]; cbn; [reflexivity|].
  rewrite IH. unfold field_sub. rewrite Z.sub_diag, Z.mod_0_l by lia. reflexivity.
Qed.

Lemma count_zeros (v : list Z) :
  count (map (fun _ => 0) v) 0 = Z.of_nat (length v).
Proof.
  unfold count. f_equal. induction v as [|a v IH]; cbn; [reflexivity|].
  destruct (Z.eq_dec 0 0); [|contradiction]. rewrite IH. reflexivity.
Qed.

(** C7, amended. With more than one ring value and a positive size (as for
    [modulus = 2], [size = 4]), [difference(v, v)] is the unbalanced sentinel
    for every balanced vector [v]: the all-zero vector is not balanced. *)
Theorem difference_self_unbalanced (size modulus : Z) (self : t) (v : list Z) :
  init size modulus = Ok self -> 1 < modulus -> 0 < size ->
  Spec.balanced size modulus v ->
  difference self (Tuple v) (Tuple v) = Ok Unbalanced.
Proof.
  intros Hinit Hm Hsize (Hlen & _ & _).
  apply (difference_cases size modulus self v v Hinit Hlen Hlen).
  intros (_ & _ & Hcount).
  rewrite difference_self_zero in Hcount by lia.
  specialize (Hcount 0 ltac:(lia)). rewrite count_zeros in Hcount.
  rewrite Hlen in Hcount.
  assert (size / modulus < size) by (apply Z.div_lt; lia). lia.
Qed.

Lemma balanced_0_0_1_1 : Spec.balanced 4 2 [0; 0; 1; 1].
Proof.
  split; [reflexivity|]. split.
  - repeat constructor; lia.
  - intros x Hx. assert (x = 0 ∨ x = 1) as [-> | ->] by lia; reflexivity.
Qed.

Lemma difference_self_unbalanced_witness :
  difference (mk 4 2 2 2) (Tuple [0; 0; 1; 1]) (Tuple [0; 0; 1; 1]) = Ok Unbalanced.
Proof.
  apply (difference_self_unbalanced 4 2 (mk 4 2 2 2) [0; 0; 1; 1]);
    [reflexivity | lia | lia | exact balanced_0_0_1_1].
Defined.

(** C7 as stated fails: with [size = 0] and [modulus = 2] the empty vector is
    balanced and [difference] returns it, not the sentinel. *)
Lemma difference_self_empty :
  ¬ (forall size modulus self v,
       init size modulus = Ok self -> 1 < modulus -> Spec.balanced size modulus v ->
       difference self (Tuple v) (Tuple v) = Ok Unbalanced).
Proof.
  intros Hall. specialize (Hall 0 2 (mk 0 2 0 2) []).
  assert (Hb : Spec.balanced 0 2 []).
  { split; [reflexivity|]. split; [constructor|]. intros x _. reflexivity. }
  specialize (Hall eq_refl ltac:(lia) Hb). vm_compute in Hall. discriminate.
Qed.

(** C8. With a nonzero modulus, the constructor raises its assertion error
    exactly when [size] is not a multiple of [modulus], and then no instance
    exists on which [elements()] could run: constructing and enumerating
    raises that same error. *)
Theorem init_assertion (size modulus : Z) :
  modulus ≠ 0 ->
  (init size modulus = Raise AssertionError <-> ¬ (modulus | size)) ∧
  (¬ (modulus | size) ->
   (self ← init size modulus; elements self) = Raise AssertionError).
Proof.
  intros Hm. rewrite <- (Z.mod_divide size modulus) by exact Hm.
  unfold init. run.
  destruct (Z.eqb_spec modulus 0) as [|_]; [contradiction|]. cbn [bind].
  destruct (Z.eqb_spec (size mod modulus) 0) as [Hr|Hr]; cbn [bind].
  - split; [|contradiction]. split; [|contradiction].
    destruct (FiniteField modulus) as [f|e] eqn:Hf; cbn [bind]; [discriminate|].
    unfold FiniteField in Hf. destruct (is_prime modulus); [discriminate|].
    injection Hf as <-. discriminate.
  - split; [|reflexivity]. split; [intros _; exact Hr|reflexivity].
Qed.

Lemma init_assertion_witness :
  (init 5 2 = Raise AssertionError <-> ¬ (2 | 5)) ∧
  (¬ (2 | 5) -> (self ← init 5 2; elements self) = Raise AssertionError).
Proof.
  apply (init_assertion 5 2). lia.
Defined.

(** C9 as stated fails: on a sequence of the wrong length [is_balanced]
    raises nothing. *)
Lemma is_balanced_raises_nothing :
  ¬ (forall size modulus self v,
       init size modulus = Ok self ->
       Z.of_nat (length v) ≠ modulus * (size / modulus) ->
       exists e, is_balanced self (Tuple v) = Raise e).
Proof.
  intros Hall. destruct (Hall 4 2 (mk 4 2 2 2) [0] eq_refl) as [e He].
  - cbn. lia.
  - vm_compute in He. discriminate.
Qed.

(** C9, amended. [is_balanced] checks no length and raises no error on a
    sequence: its result is the count-based boolean, and that boolean is
    [False] for a sequence of ring elements whose length is not
    [modulus * quotient]. *)
Theorem is_balanced_wrong_length (self : t) (v : list Z) :
  0 < modulus self ->
  Forall (fun x => 0 <= x < modulus self) v ->
  Z.of_nat (length v) ≠ modulus self * quotient self ->
  is_balanced self (Tuple v)
  = Ok (forallb (fun i => count v i =? quotient self) (range (modulus self))) ∧
  is_balanced self (Tuple v) = Ok false.
Proof.
  intros Hm Hall Hlen. split.
  - cbn [is_balanced]. rewrite is_balanced_loop_forallb. reflexivity.
  - apply is_balanced_mismatch; assumption.
Qed.

Lemma is_balanced_wrong_length_witness :
  is_balanced (mk 4 2 2 2) (Tuple [0; 1; 0])
  = Ok (forallb (fun i => count [0; 1; 0] i =? 2) (range 2)) ∧
  is_balanced (mk 4 2 2 2) (Tuple [0; 1; 0]) = Ok false.
Proof.
  apply (is_balanced_wrong_length (mk 4 2 2 2) [0; 1; 0]).
  - cbn. lia.
  - cbn. repeat constructor; lia.
  - cbn. lia.
Defined.

(** C10. [is_balanced] returns a boolean on every sequence, and [False] on a
    sequence of ring elements whose length differs from
    [modulus * quotient]. *)
Theorem is_balanced_total (self : t) (v : list Z) :
  0 < modulus self ->
  (exists b, is_balanced self (Tuple v) = Ok b) ∧
  (Forall (fun x => 0 <= x < modulus self) v ->
   Z.of_nat (length v) ≠ modulus self * quotient self ->
   is_balanced self (Tuple v) = Ok false).
Proof.
  intros Hm. split.
  - eexists. reflexivity.
  - intros Hall Hlen. apply is_balanced_mismatch; assumption.
Qed.

Lemma is_balanced_total_witness :
  (exists b, is_balanced (mk 4 2 2 2) (Tuple [1; 0; 1; 0; 1]) = Ok b) ∧
  is_balanced (mk 4 2 2 2) (Tuple [1; 0; 1; 0; 1]) = Ok false.
Proof.
  destruct (is_balanced_total (mk 4 2 2 2) [1; 0; 1; 0; 1]) as [Hb Hf].
  - cbn. lia.
  - split; [exact Hb|]. apply Hf.
    + cbn. repeat constructor; lia.
    + cbn. lia.
Defined.

End BalancedVectorsFacts.

(** ** Fuglede: the subset generators, for whatever order Sage lists a matrix
    space in *)
Module FugledeFacts.
Import Fuglede.

Lemma index_In {A : Type} `{EqDecision A} (l : list A) (x : A) :
  In x l -> exists i, index l x = Ok i.
Proof.
  induction l as [|y l IH]; intros Hin; [destruct Hin|]. cbn [index].
  destruct (decide (y = x)) as [|Hne]; [eexists; reflexivity|].
  destruct Hin as [|Hin]; [contradiction|].
  destruct (IH Hin) as [i ->]. run. eexists. reflexivity.
Qed.

Lemma lookup_map_seq {B : Type} (f : nat -> B) (n i : nat) :
  (i < n)%nat -> map f (seq 0 n) !! i = Some (f i).
Proof.
  intros Hi. change (map f (seq 0 n)) with (f <$> seq 0 n).
  rewrite list_lookup_fmap, lookup_seq_lt by lia. reflexivity.
Qed.

Section Generators.
Context {sage : Matrices} {laws : MatricesLaws}.

Lemma subset_pairs_init_Ok (modulus : Z) (dimension : nat) (self : t) :
  init modulus dimension = Ok self ->
  1 < modulus ∧ self = mk modulus dimension modulus (MatrixSpace_list modulus 1 dimension).
Proof.
  unfold init, FiniteField, is_prime. run.
  destruct (Z.ltb_spec 1 modulus) as [H1|]; [|discriminate]. cbn [andb].
  destruct (forallb _ _); [|discriminate]. cbn [bind]. intros [= <-]. auto.
Qed.

(** A filtering generator whose condition never raises yields the elements of
    its source on which the condition is true. *)
Lemma keep_if_spec (cond : matrix -> result bool) (source : list matrix) :
  (forall e, In e source -> exists b, cond e = Ok b) ->
  exists l, keep_if cond source = Ok l ∧
    forall M, In M l <-> In M source ∧ cond M = Ok true.
Proof.
  induction source as [|e rest IH]; intros Hdef; cbn [keep_if].
  - exists []. split; [reflexivity|]. intros M. cbn. tauto.
  - destruct (Hdef e) as [b Hb]; [left; reflexivity|].
    destruct IH as (l & Hl & Hin); [intros e' He'; apply Hdef; right; exact He'|].
    rewrite Hb, Hl. run. eexists. split; [reflexivity|].
    intros M. destruct b; cbn [In]; rewrite ?Hin.
    + split; [intros [<-|[? ?]]; auto|]. intros [[<-|?] ?]; auto.
    + split; [intros [? ?]; auto|]. intros [[<-|?] ?]; [congruence|auto].
Qed.

Lemma subsets_loop_keep_if (self : t) (size : nat) (space : list matrix) :
  subsets_loop self size space
  = keep_if (fun elem => subsets_passing self elem (seq 0 (size - 1))) space.
Proof.
  induction space as [|elem rest IH]; cbn [subsets_loop keep_if]; [reflexivity|].
  rewrite IH. reflexivity.
Qed.

(** Column [i] of a matrix of the space is a point of the space. *)
Lemma column_is_point (p : Z) (d size : nat) (M : matrix) (i : nat) :
  in_matrix_space p d size M -> (i < size)%nat ->
  exists c, row (transpose M) (Z.of_nat i) = Ok c ∧ In (Matrix c) (MatrixSpace_list p 1 d).
Proof.
  intros (Hb & Hr & Hc & Hlen & Hrows) Hi.
  exists (Vec p (map (fun v => nth i v 0) (entries M))). split.
  - unfold row, transpose. cbn [entries base].
    rewrite (getitem_lookup _ i (map (fun v => nth i v 0) (entries M))).
    + run. rewrite Hb. reflexivity.
    + rewrite lookup_map_seq by lia. reflexivity.
  - apply MatrixSpace_complete. unfold Matrix, in_matrix_space.
    cbn [base nrows ncols entries vbase coords length].
    rewrite length_map. repeat split; try assumption; try reflexivity.
    constructor; [|constructor]. split; [rewrite length_map; exact Hlen|].
    rewrite Forall_forall in Hrows. apply Forall_forall. intros x Hx.
    apply in_map_iff in Hx as (v & <- & Hv). destruct (Hrows v Hv) as [Hvl Hvr].
    rewrite Forall_forall in Hvr. apply Hvr, nth_In. lia.
Qed.

Lemma column_index_defined (p : Z) (d size : nat) (M : matrix) (i : nat) :
  in_matrix_space p d size M -> (i < size)%nat ->
  exists a, column_index (mk p d p (MatrixSpace_list p 1 d)) M i = Ok a.
Proof.
  intros HM Hi. destruct (column_is_point p d size M i HM Hi) as (c & Hc & Hin).
  unfold column_index. rewrite Hc. run. cbn [elements]. apply index_In, Hin.
Qed.

(** The inner loop of [subsets] answers whether the columns it is asked about
    are in increasing position. *)
Lemma subsets_passing_spec (self : t) (M : matrix) (idx : list nat) :
  (forall i, In i idx -> exists a b,
     column_index self M i = Ok a ∧ column_index self M (i + 1) = Ok b) ->
  exists r, subsets_passing self M idx = Ok r ∧
    (r = true <-> forall i, In i idx -> exists a b,
       column_index self M i = Ok a ∧ column_index self M (i + 1) = Ok b ∧ (a < b)%nat).
Proof.
  induction idx as [|i rest IH]; intros Hdef; cbn [subsets_passing].
  - exists true. split; [reflexivity|]. split; [intros _ i []|reflexivity].
  - destruct (Hdef i) as (a & b & Ha & Hb); [left; reflexivity|].
    rewrite Ha, Hb. run. destruct (Nat.leb_spec b a) as [Hle|Hlt].
    + exists false. split; [reflexivity|]. split; [discriminate|].
      intros Hall. destruct (Hall i) as (a' & b' & Ha' & Hb' & Hlt); [left; reflexivity|].
      rewrite Ha in Ha'. rewrite Hb in Hb'. injection Ha' as <-. injection Hb' as <-. lia.
    + destruct IH as (r & Hr & Hiff); [intros j Hj; apply Hdef; right; exact Hj|].
      exists r. split; [exact Hr|]. rewrite Hiff. split.
      * intros Hall j [<-|Hj]; [exists a, b; auto|apply Hall, Hj].
      * intros Hall j Hj. apply Hall. right. exact Hj.
Qed.

Lemma subsets_spec (modulus : Z) (dimension size : nat) (self : t) :
  init modulus dimension = Ok self ->
  exists l, subsets self size = Ok l ∧
    forall M, In M l <->
      in_matrix_space modulus dimension size M ∧
      Spec.increasing_columns size (column_index self M).
Proof.
  intros Hinit. apply subset_pairs_init_Ok in Hinit as (Hm & ->).
  unfold subsets. cbn [fld Fuglede.dimension]. rewrite subsets_loop_keep_if.
  set (self := mk modulus dimension modulus (MatrixSpace_list modulus 1 dimension)).
  assert (Hdef : forall M, in_matrix_space modulus dimension size M ->
            forall i, In i (seq 0 (size - 1)) -> exists a b,
              column_index self M i = Ok a ∧ column_index self M (i + 1) = Ok b).
  { intros M HM i Hi. apply in_seq in Hi.
    destruct (column_index_defined modulus dimension size M i HM) as [a Ha]; [lia|].
    destruct (column_index_defined modulus dimension size M (i + 1) HM) as [b Hb]; [lia|].
    exists a, b. split; assumption. }
  destruct (keep_if_spec (fun elem => subsets_passing self elem (seq 0 (size - 1)))
              (MatrixSpace_list modulus dimension size)) as (l & Hl & Hin).
  { intros e He. apply MatrixSpace_sound in He.
    destruct (subsets_passing_spec self e _ (Hdef e He)) as (r & Hr & _).
    exists r. exact Hr. }
  exists l. split; [exact Hl|]. intros M. rewrite Hin. split.
  - intros [HM Hpass]. apply MatrixSpace_sound in HM. split; [exact HM|].
    destruct (subsets_passing_spec self M _ (Hdef M HM)) as (r & Hr & Hiff).
    rewrite Hr in Hpass. injection Hpass as ->.
    intros i Hi. apply (proj1 Hiff eq_refl). apply in_seq. lia.
  - intros [HM Hinc]. split; [apply MatrixSpace_complete, HM|].
    destruct (subsets_passing_spec self M _ (Hdef M HM)) as (r & Hr & Hiff).
    rewrite Hr. f_equal. apply Hiff. intros i Hi. apply in_seq in Hi.
    apply Hinc. lia.
Qed.

(** C4. [subsets(size)] yields exactly the [size]-column matrices over the
    space whose columns are strictly increasing in the enumeration order of
    the points: [index(column[i]) < index(column[i+1])] for all [i]. *)
Theorem subsets_canonical (modulus : Z) (dimension size : nat) (self : t) :
  init modulus dimension = Ok self ->
  exists l, subsets self size = Ok l ∧
    (forall M, In M l ->
       in_matrix_space modulus dimension size M ∧
       Spec.increasing_columns size (column_index self M)) ∧
    (forall M, in_matrix_space modulus dimension size M ->
       Spec.increasing_columns size (column_index self M) -> In M l).
Proof.
  intros Hinit. destruct (subsets_spec modulus dimension size self Hinit) as (l & Hl & Hin).
  exists l. split; [exact Hl|]. split.
  - intros M HM. apply Hin, HM.
  - intros M HM Hinc. apply Hin. split; assumption.
Qed.

Lemma zero_vector_iff (b : Z) (l : list Z) :
  l = map (fun x => (0 * x) mod b) l <-> Forall (fun x => x = 0) l.
Proof.
  induction l as [|x l IH]; cbn [map].
  - split; [constructor|reflexivity].
  - rewrite Z.mul_0_l, Zmod_0_l. split.
    + intros [= Hx Hl]. constructor; [exact Hx|]. apply IH, Hl.
    + intros Hall. inversion Hall as [|? ? Hx Hl]; subst.
      f_equal. apply IH, Hl.
Qed.

Lemma first_column_zero_spec (M : matrix) :
  (0 < ncols M)%nat ->
  exists b, first_column_zero M = Ok b ∧ (b = true <-> Spec.first_column_is_zero M).
Proof.
  intros Hc. unfold first_column_zero, Spec.first_column_is_zero, columns, transpose.
  cbn [entries]. destruct (ncols M) as [|n]; [lia|]. cbn [seq map head].
  unfold getitem. cbn. run. eexists. split; [reflexivity|].
  rewrite bool_decide_eq_true. unfold zero_times. cbn [vbase coords]. split.
  - intros [= Heq]. eexists. split; [reflexivity|]. cbn [coords].
    apply (zero_vector_iff (base M)), Heq.
  - intros (c & [= <-] & Hall). cbn [coords] in Hall. f_equal.
    apply zero_vector_iff, Hall.
Qed.

(** C5. For a positive [size], [firstsets(size)] yields exactly the subsets
    from [subsets(size)] whose first column is the zero point, that equal
    their row-reduced echelon form and have rank [min(size, dimension)];
    [secondsets(size)] yields exactly those whose first column is the zero
    point. *)
Theorem firstsets_secondsets_filter (modulus : Z) (dimension size : nat) (self : t) :
  init modulus dimension = Ok self -> (1 <= size)%nat ->
  exists l l1 l2,
    subsets self size = Ok l ∧ firstsets self size = Ok l1 ∧
    secondsets self size = Ok l2 ∧
    (forall M, In M l1 <->
       In M l ∧ Spec.first_column_is_zero M ∧ rref M = M ∧
       rank M = Nat.min size dimension) ∧
    (forall M, In M l2 <-> In M l ∧ Spec.first_column_is_zero M).
Proof.
  intros Hinit Hsize.
  assert (Hdim : Fuglede.dimension self = dimension).
  { destruct (subset_pairs_init_Ok _ _ _ Hinit) as [_ ->]. reflexivity. }
  destruct (subsets_spec modulus dimension size self Hinit) as (l & Hl & Hin).
  assert (Hcols : forall M, In M l -> (0 < ncols M)%nat).
  { intros M HM. apply Hin in HM as [(_ & _ & Hc & _) _]. lia. }
  destruct (keep_if_spec (is_first self size) l) as (l1 & Hl1 & Hin1).
  { intros e He. unfold is_first.
    destruct (first_column_zero_spec e (Hcols e He)) as (b & -> & _). run.
    eexists. reflexivity. }
  destruct (keep_if_spec first_column_zero l) as (l2 & Hl2 & Hin2).
  { intros e He. destruct (first_column_zero_spec e (Hcols e He)) as (b & -> & _).
    eexists. reflexivity. }
  exists l, l1, l2. unfold firstsets, secondsets. rewrite Hl. run.
  split; [reflexivity|]. split; [exact Hl1|]. split; [exact Hl2|]. split.
  - intros M. rewrite Hin1. split.
    + intros [HM Hfirst]. split; [exact HM|]. unfold is_first in Hfirst.
      destruct (first_column_zero_spec M (Hcols M HM)) as (b & Hb & Hiff).
      rewrite Hb in Hfirst. run. injection Hfirst as Hfirst.
      apply andb_prop in Hfirst as [Hfirst Hrank].
      apply andb_prop in Hfirst as [Hzero Hrref].
      apply bool_decide_eq_true in Hrank, Hrref.
      rewrite Hdim in Hrank. split; [apply Hiff, Hzero|]. split; assumption.
    + intros (HM & Hzero & Hrref & Hrank). split; [exact HM|]. unfold is_first.
      destruct (first_column_zero_spec M (Hcols M HM)) as (b & Hb & Hiff).
      rewrite Hb. run. f_equal. apply Hiff in Hzero. rewrite Hzero, Hdim.
      rewrite !bool_decide_eq_true_2 by assumption. reflexivity.
  - intros M. rewrite Hin2. split.
    + intros [HM Hzero]. split; [exact HM|].
      destruct (first_column_zero_spec M (Hcols M HM)) as (b & Hb & Hiff).
      rewrite Hb in Hzero. injection Hzero as ->. apply Hiff. reflexivity.
    + intros [HM Hzero]. split; [exact HM|].
      destruct (first_column_zero_spec M (Hcols M HM)) as (b & Hb & Hiff).
      rewrite Hb. f_equal. apply Hiff, Hzero.
Qed.

(** The loop of [runtest] over the pairs of rows stops at the first failing
    pair, whatever pairs follow it. *)
Lemma first_failing_short_circuit (self : t) (H0 : matrix)
      (before after : list (Z * Z)) (i j : Z) (row0 row1 d : vector) :
  first_failing self H0 before = Ok None ->
  i ≠ j -> row H0 i = Ok row0 -> row H0 j = Ok row1 ->
  row_difference self row0 row1 = Ok false -> vector_sub row0 row1 = Ok d ->
  first_failing self H0 (before ++ (i, j) :: after) = Ok (Some (Failing row0 row1 d)).
Proof.
  intros Hbefore Hij Hr0 Hr1 Hfail Hd.
  induction before as [|[i' j'] before IH]; cbn [app first_failing] in *.
  - rewrite bool_decide_eq_true_2 by exact Hij. rewrite Hr0, Hr1. run.
    rewrite Hfail. cbn [bind]. rewrite Hd. reflexivity.
  - destruct (bool_decide (i' ≠ j')); [|apply IH, Hbefore].
    destruct (row H0 i') as [r0|]; [|discriminate]. run.
    destruct (row H0 j') as [r1|]; [|discriminate]. cbn [bind] in *.
    destruct (row_difference self r0 r1) as [[|]|]; cbn [bind] in *.
    + apply IH, Hbefore.
    + destruct (vector_sub r0 r1); discriminate.
    + discriminate.
Qed.

(** The receiver of [runtest] is read for its modulus only. *)
Lemma runtest_receiver (S self self' : t) (size : nat) :
  modulus self = modulus self' -> runtest S self size = runtest S self' size.
Proof.
  intros Hm.
  assert (Hpairs : forall H0 pairs,
            first_failing self H0 pairs = first_failing self' H0 pairs).
  { intros H0 pairs. induction pairs as [|[i j] pairs IH]; cbn [first_failing];
      [reflexivity|].
    rewrite IH. unfold row_difference. rewrite Hm. reflexivity. }
  assert (Hpair : forall E B, test_pair self size E B = test_pair self' size E B).
  { intros E B. unfold test_pair, loghadamard. destruct (matrix_mul _ B); [|reflexivity].
    run. rewrite Hpairs. reflexivity. }
  assert (Heach : forall E l, for_each (test_pair self size E) l
                              = for_each (test_pair self' size E) l).
  { intros E l. induction l as [|B l IH]; cbn [for_each]; [reflexivity|].
    rewrite Hpair, IH. reflexivity. }
  unfold runtest. destruct (firstsets S size) as [firsts|]; [|reflexivity]. run.
  induction firsts as [|E firsts IH]; cbn [runtest_loop]; [reflexivity|].
  destruct (secondsets S size) as [seconds|]; [|reflexivity]. run.
  rewrite Heach, IH. reflexivity.
Qed.

End Generators.
End FugledeFacts.

(** ** The executable instance lists each matrix space, whole *)
Module ReferenceFacts.
Import Reference.

Lemma tuples_spec {A : Type} (alphabet : list A) (n : nat) (v : list A) :
  In v (tuples alphabet n) <-> length v = n ∧ Forall (fun x => In x alphabet) v.
Proof.
  revert v. induction n as [|n IH]; intros v; cbn [tuples].
  - split.
    + intros [<-|[]]. split; [reflexivity|constructor].
    + intros [Hlen _]. destruct v; [left; reflexivity|discriminate].
  - rewrite in_flat_map. split.
    + intros (x & Hx & Hv). apply in_map_iff in Hv as (w & <- & Hw).
      apply IH in Hw as [Hlen Hall]. cbn [length]. split; [lia|].
      constructor; assumption.
    + intros [Hlen Hall]. destruct v as [|x w]; [discriminate|].
      inversion Hall as [|? ? Hx Hw]; subst. exists x. split; [exact Hx|].
      apply in_map, IH. cbn [length] in Hlen. split; [lia|exact Hw].
Qed.

Lemma sum_list_bound (p : Z) (v : list Z) :
  Forall (fun x => 0 <= x < p) v ->
  0 <= sum_list v <= (p - 1) * Z.of_nat (length v).
Proof.
  induction 1 as [|x v Hx Hv IH]; cbn [sum_list foldr length]; [lia|].
  unfold sum_list in IH. nia.
Qed.

Lemma weight_bound (p : Z) (c : nat) (rows : list (list Z)) :
  Forall (fun v => length v = c ∧ Forall (fun x => 0 <= x < p) v) rows ->
  0 <= weight rows <= (p - 1) * Z.of_nat (length rows * c).
Proof.
  unfold weight.
  induction 1 as [|v rows [Hlen Hv] Hrows IH]; cbn [map sum_list foldr length]; [lia|].
  apply sum_list_bound in Hv. unfold sum_list in *. rewrite Hlen in Hv. nia.
Qed.

Lemma In_rev_range (p x : Z) : In x (rev (range p)) <-> 0 <= x < p.
Proof. rewrite <- in_rev. apply In_range. Qed.

Lemma matrices_spec (p : Z) (r c : nat) (M : matrix) :
  In M (matrices p r c) <-> in_matrix_space p r c M.
Proof.
  unfold matrices, in_matrix_space. rewrite in_map_iff. split.
  - intros (rows & <- & Hrows). cbn [base nrows ncols entries].
    apply in_flat_map in Hrows as (w & _ & Hrows).
    apply filter_In in Hrows as [Hrows _].
    apply tuples_spec in Hrows as [Hlen Hall].
    repeat split; try reflexivity; [exact Hlen|].
    eapply Forall_impl; [|exact Hall]. intros v Hv. cbn beta in Hv.
    apply tuples_spec in Hv as [Hvl Hvr]. split; [exact Hvl|].
    eapply Forall_impl; [|exact Hvr]. intros x. apply In_rev_range.
  - destruct M as [b nr nc rows]. cbn [base nrows ncols entries].
    intros (-> & -> & -> & Hlen & Hall). exists rows. split; [reflexivity|].
    apply in_flat_map. exists (weight rows). split.
    + apply In_range. pose proof (weight_bound p c rows Hall) as Hw.
      rewrite Hlen in Hw. lia.
    + apply filter_In. split; [|apply bool_decide_eq_true; reflexivity].
      apply tuples_spec. split; [exact Hlen|].
      eapply Forall_impl; [|exact Hall]. intros v [Hvl Hvr]. cbn beta.
      apply tuples_spec. split; [exact Hvl|].
      eapply Forall_impl; [|exact Hvr]. intros x. apply In_rev_range.
Qed.

#[global] Instance sage_laws : MatricesLaws.
Proof.
  split; intros p r c M; apply matrices_spec.
Defined.

End ReferenceFacts.

(** ** Fuglede on the spaces of the demonstration *)
Module FugledeRuns.
Import Fuglede Demo.

Lemma subsets_canonical_witness :
  exists l, subsets (mk 2 1 2 (Reference.matrices 2 1 1)) 2 = Ok l ∧
    (forall M, In M l ->
       in_matrix_space 2 1 2 M ∧
       Spec.increasing_columns 2
         (column_index (mk 2 1 2 (Reference.matrices 2 1 1)) M)) ∧
    (forall M, in_matrix_space 2 1 2 M ->
       Spec.increasing_columns 2
         (column_index (mk 2 1 2 (Reference.matrices 2 1 1)) M) -> In M l).
Proof.
  apply (FugledeFacts.subsets_canonical 2 1 2 (mk 2 1 2 (Reference.matrices 2 1 1))).
  reflexivity.
Defined.

Lemma firstsets_secondsets_filter_witness :
  exists l l1 l2,
    subsets (mk 2 1 2 (Reference.matrices 2 1 1)) 2 = Ok l ∧
    firstsets (mk 2 1 2 (Reference.matrices 2 1 1)) 2 = Ok l1 ∧
    secondsets (mk 2 1 2 (Reference.matrices 2 1 1)) 2 = Ok l2 ∧
    (forall M, In M l1 <->
       In M l ∧ Spec.first_column_is_zero M ∧ rref M = M ∧
       rank M = Nat.min 2 1) ∧
    (forall M, In M l2 <-> In M l ∧ Spec.first_column_is_zero M).
Proof.
  apply (FugledeFacts.firstsets_secondsets_filter 2 1 2
           (mk 2 1 2 (Reference.matrices 2 1 1))); [reflexivity|lia].
Defined.

Example subsets_2_1_2 :
  subsets (mk 2 1 2 (Reference.matrices 2 1 1)) 2 = Ok [Mat 2 1 2 [[0; 1]]].
Proof. vm_compute. reflexivity. Qed.

Example firstsets_2_3_4 :
  (S ← init 2 3; firstsets S 4) = Ok [E4].
Proof. vm_compute. reflexivity. Qed.

Lemma equal_tallies_0_0_1_1 : Spec.equal_tallies 2 [0; 0; 1; 1].
Proof.
  intros x y Hx Hy.
  assert (x = 0 ∨ x = 1) as [-> | ->] by lia;
    assert (y = 0 ∨ y = 1) as [-> | ->] by lia; reflexivity.
Qed.

(** C2, on the code. For [S = SubsetPairs(2, 3)], the first-type subset [E4]
    and the second-type subset [B4], rows 0 and 3 of the log-Hadamard matrix
    differ by [(0, 0, 1, 1)], whose two values each appear twice, and
    [row_difference] answers [False]. *)
Theorem row_difference_miscounts :
  exists S l1 l2 H0 row0 row3 d,
    init 2 3 = Ok S ∧
    firstsets S 4 = Ok l1 ∧ In E4 l1 ∧
    secondsets S 4 = Ok l2 ∧ In B4 l2 ∧
    loghadamard S E4 B4 = Ok H0 ∧
    row H0 0 = Ok row0 ∧ row H0 3 = Ok row3 ∧
    vector_sub row0 row3 = Ok d ∧ coords d = [0; 0; 1; 1] ∧
    Spec.equal_tallies 2 (coords d) ∧
    row_difference S row0 row3 = Ok false.
Proof.
  eexists. eexists. eexists. eexists. eexists. eexists. eexists.
  split; [vm_compute; reflexivity|].
  split; [vm_compute; reflexivity|].
  split; [left; reflexivity|].
  split; [vm_compute; reflexivity|].
  split; [apply list_elem_of_In, (bool_decide_unpack _); vm_compute; exact I|].
  split; [vm_compute; reflexivity|].
  split; [vm_compute; reflexivity|].
  split; [vm_compute; reflexivity|].
  split; [vm_compute; reflexivity|].
  split; [reflexivity|].
  split; [exact equal_tallies_0_0_1_1|].
  vm_compute. reflexivity.
Qed.

(** The pair [(E4, B4)] is rejected by [runtest(4)] on that row pair. *)
Example test_pair_E4_B4 :
  (S ← init 2 3; test_pair S 4 E4 B4)
  = Ok (Failing (Vec 2 [0; 0; 0; 0]) (Vec 2 [0; 0; 1; 1]) (Vec 2 [0; 0; 1; 1])).
Proof. vm_compute. reflexivity. Qed.

(** C3, on the code. With the module-level [S = SubsetPairs(2, 3)] and the
    receiver [T = SubsetPairs(2, 2)], [T] has one first-type and three
    second-type subsets of size 3, [S] has no first-type subset of size 3, and
    [T.runtest(3)] examines no pair at all; run over [T]'s own subsets it
    would examine three. *)
Theorem runtest_names_module_instance :
  exists S T E l2 lines,
    init 2 3 = Ok S ∧ init 2 2 = Ok T ∧
    firstsets T 3 = Ok [E] ∧
    secondsets T 3 = Ok l2 ∧ length l2 = 3%nat ∧
    firstsets S 3 = Ok [] ∧
    runtest S T 3 = Ok [] ∧
    runtest T T 3 = Ok lines ∧ length lines = 3%nat.
Proof.
  eexists. eexists. eexists. eexists. eexists.
  split; [vm_compute; reflexivity|].
  split; [vm_compute; reflexivity|].
  split; [vm_compute; reflexivity|].
  split; [vm_compute; reflexivity|].
  split; [reflexivity|].
  split; [vm_compute; reflexivity|].
  split; [vm_compute; reflexivity|].
  split; [vm_compute; reflexivity|].
  reflexivity.
Qed.

End FugledeRuns.

(** * Further properties of the code *)

(** ** Comprehensions that may raise *)

Lemma for_each_In {A B : Type} (f : A -> result B) (l : list A) (ys : list B) :
  for_each f l = Ok ys ->
  length ys = length l ∧ forall y, In y ys <-> exists x, In x l ∧ f x = Ok y.
Proof.
  revert ys. induction l as [|x l IH]; intros ys; cbn [for_each].
  - intros [= <-]. split; [reflexivity|]. intros y. split; [intros []|].
    intros (x & [] & _).
  - destruct (f x) as [y0|e] eqn:Hx; run; [|discriminate].
    destruct (for_each f l) as [ys0|e] eqn:Hl; run; [|discriminate].
    intros [= <-]. destruct (IH ys0 eq_refl) as [Hlen Hin].
    split; [cbn [length]; lia|]. intros y. cbn [In]. rewrite Hin. split.
    + intros [<-|(x' & Hx' & Hy)]; [exists x; auto|exists x'; auto].
    + intros (x' & [<-|Hx'] & Hy); [left; congruence|right; exists x'; auto].
Qed.

Lemma for_each_total {A B : Type} (f : A -> result B) (l : list A) :
  (forall x, In x l -> exists y, f x = Ok y) -> exists ys, for_each f l = Ok ys.
Proof.
  induction l as [|x l IH]; intros Hf; cbn [for_each]; [eexists; reflexivity|].
  destruct (Hf x) as [y ->]; [left; reflexivity|].
  destruct IH as [ys ->]; [intros x' Hx'; apply Hf; right; exact Hx'|].
  run. eexists. reflexivity.
Qed.

Lemma for_each_ext {A B : Type} (f g : A -> result B) (l : list A) :
  (forall x, In x l -> f x = g x) -> for_each f l = for_each g l.
Proof.
  induction l as [|x l IH]; intros Hfg; cbn [for_each]; [reflexivity|].
  rewrite (Hfg x) by (left; reflexivity).
  rewrite IH by (intros x' Hx'; apply Hfg; right; exact Hx'). reflexivity.
Qed.

(** A comprehension whose body can only raise [e] raises [e] as soon as one
    element does. *)
Lemma for_each_raise {A B : Type} (f : A -> result B) (l : list A) (e : exn) :
  (forall x, In x l -> (exists y, f x = Ok y) ∨ f x = Raise e) ->
  (exists x, In x l ∧ f x = Raise e) ->
  for_each f l = Raise e.
Proof.
  induction l as [|x l IH]; intros Hf (x0 & Hin & Hx0); [destruct Hin|].
  cbn [for_each]. destruct (Hf x) as [[y Hy]|Hr]; [left; reflexivity| |].
  - rewrite Hy. run. rewrite IH; [reflexivity| |].
    + intros x' Hx'. apply Hf. right. exact Hx'.
    + destruct Hin as [<-|Hin]; [congruence|]. exists x0. auto.
  - rewrite Hr. reflexivity.
Qed.

Lemma getitem_out_of_range {A : Type} (l : list A) (i : Z) :
  Z.of_nat (length l) <= i -> getitem l i = Raise IndexError.
Proof.
  intros Hi. unfold getitem.
  destruct (Z.ltb_spec i 0) as [|_]; [lia|].
  destruct (Z.ltb_spec i 0) as [|_]; [lia|].
  rewrite lookup_ge_None_2 by lia. reflexivity.
Qed.

(** ** More of BalancedVectors *)
Module BalancedVectorsMore.
Import BalancedVectors BalancedVectorsFacts.

Lemma elements_members (size modulus : Z) (self : t) :
  init size modulus = Ok self -> 0 <= size ->
  exists l, elements self = Ok l ∧ List.NoDup l ∧
    forall v, In v l <-> Spec.balanced size modulus v.
Proof.
  intros Hinit Hsize. apply init_Ok in Hinit as (Hm & Hdiv & ->).
  unfold elements, permutations. cbn [BalancedVectors.size fld].
  destruct (Z.ltb_spec size 0) as [|_]; [lia|]. run.
  eexists. split; [reflexivity|].
  destruct (elements_loop_spec
              (arrangements (map (field modulus) (range size)) (Z.to_nat size)) [])
    as [Hnd Hin].
  split; [exact Hnd|]. intros v. rewrite Hin, arrangements_spec.
  - rewrite balanced_iff_rearranged by lia. cbn [In]. tauto.
  - rewrite length_map. unfold range. apply length_seqZ.
Qed.

(** X1. An accepted configuration has [size = modulus * quotient], with a
    modulus of at least 2 stored as given. *)
Theorem init_invariant (size modulus : Z) (self : t) :
  init size modulus = Ok self ->
  BalancedVectors.size self = size ∧ BalancedVectors.modulus self = modulus ∧
  2 <= modulus ∧
  BalancedVectors.size self = BalancedVectors.modulus self * quotient self.
Proof.
  intros Hinit. apply init_Ok in Hinit as (Hm & Hdiv & ->).
  cbn [BalancedVectors.size BalancedVectors.modulus quotient].
  repeat split; try lia. rewrite (Z.div_mod size modulus) at 1 by lia. lia.
Qed.

Lemma init_invariant_witness :
  BalancedVectors.size (mk 6 3 2 3) = 6 ∧ BalancedVectors.modulus (mk 6 3 2 3) = 3 ∧
  2 <= 3 ∧
  BalancedVectors.size (mk 6 3 2 3)
  = BalancedVectors.modulus (mk 6 3 2 3) * quotient (mk 6 3 2 3).
Proof. apply (init_invariant 6 3 (mk 6 3 2 3)). reflexivity. Defined.

Lemma is_balanced_iff (size modulus : Z) (self : t) (v : list Z) :
  init size modulus = Ok self ->
  Forall (fun x => 0 <= x < modulus) v ->
  is_balanced self (Tuple v) = Ok true <-> Spec.balanced size modulus v.
Proof.
  intros Hinit Hall. split.
  - intros Hb. apply (is_balanced_balanced size modulus self v Hinit); auto.
    pose proof (init_Ok _ _ _ Hinit) as (Hm & Hdiv & ->).
    cbn [is_balanced BalancedVectors.modulus quotient] in Hb.
    injection Hb as Hloop. rewrite is_balanced_loop_spec in Hloop.
    rewrite (equal_counts_length modulus (size / modulus) v); [|lia|exact Hall|].
    + rewrite (Z.div_mod size modulus) at 2 by lia. lia.
    + intros i Hi. apply Hloop, In_range, Hi.
  - intros Hb. destruct Hb as (Hlen & Hb).
    apply (is_balanced_balanced size modulus self v Hinit Hlen Hall).
    split; [exact Hlen|exact Hb].
Qed.

(** X2. On a sequence of ring elements of any length, [is_balanced] answers
    [True] exactly for the balanced vectors of the configuration. *)
Theorem is_balanced_decides (size modulus : Z) (self : t) (v : list Z) :
  init size modulus = Ok self ->
  Forall (fun x => 0 <= x < modulus) v ->
  is_balanced self (Tuple v) = Ok true <-> Spec.balanced size modulus v.
Proof. apply is_balanced_iff. Qed.

Lemma is_balanced_decides_witness :
  is_balanced (mk 4 2 2 2) (Tuple [0; 1; 1; 0]) = Ok true
  <-> Spec.balanced 4 2 [0; 1; 1; 0].
Proof.
  apply (is_balanced_decides 4 2 (mk 4 2 2 2) [0; 1; 1; 0]); [reflexivity|].
  repeat constructor; lia.
Defined.

Lemma reducedelements_loop_filter (elems : list (list Z)) :
  (forall e, In e elems -> e ≠ []) ->
  reducedelements_loop elems
  = Ok (List.filter (fun e => bool_decide (head e = Some 0)) elems).
Proof.
  induction elems as [|e elems IH]; intros Hne; cbn [reducedelements_loop List.filter];
    [reflexivity|].
  rewrite IH by (intros e' He'; apply Hne; right; exact He').
  destruct e as [|x e]; [exfalso; apply (Hne []); [left|]; reflexivity|].
  change (getitem (x :: e) 0) with (getitem (x :: e) (Z.of_nat 0)).
  rewrite (getitem_lookup (x :: e) 0%nat x eq_refl). run. f_equal.
  cbn [head]. destruct (Z.eqb_spec x 0) as [->|Hx].
  - rewrite bool_decide_eq_true_2 by reflexivity. reflexivity.
  - rewrite bool_decide_eq_false_2 by congruence. reflexivity.
Qed.

Lemma reducedelements_members (size modulus : Z) (self : t) :
  init size modulus = Ok self -> 0 < size ->
  exists l, reducedelements self = Ok l ∧ List.NoDup l ∧
    forall v, In v l <-> Spec.balanced size modulus v ∧ head v = Some 0.
Proof.
  intros Hinit Hsize.
  destruct (elements_members size modulus self Hinit) as (elems & He & Hnd & Hin); [lia|].
  unfold reducedelements. rewrite He. run. rewrite reducedelements_loop_filter.
  - eexists. split; [reflexivity|]. split; [apply NoDup_filter, Hnd|].
    intros v. rewrite filter_In, Hin, bool_decide_eq_true. reflexivity.
  - intros e He' ->. apply Hin in He' as (Hlen & _). cbn in Hlen. lia.
Qed.

(** X3. For a positive size, [reducedelements()] yields exactly the balanced
    vectors whose first component is [0], none of them twice. *)
Theorem reducedelements_spec (size modulus : Z) (self : t) :
  init size modulus = Ok self -> 0 < size ->
  exists l, reducedelements self = Ok l ∧ List.NoDup l ∧
    forall v, In v l <-> Spec.balanced size modulus v ∧ head v = Some 0.
Proof. apply reducedelements_members. Qed.

Lemma reducedelements_spec_witness :
  exists l, reducedelements (mk 4 2 2 2) = Ok l ∧ List.NoDup l ∧
    forall v, In v l <-> Spec.balanced 4 2 v ∧ head v = Some 0.
Proof. apply (reducedelements_spec 4 2 (mk 4 2 2 2)); [reflexivity|lia]. Defined.

Example reducedelements_4_2 :
  reducedelements (mk 4 2 2 2) = Ok [[0;1;0;1]; [0;1;1;0]; [0;0;1;1]].
Proof. vm_compute. reflexivity. Qed.

(** X4. With [size = 0] the only element is the empty tuple, and
    [reducedelements()] raises [IndexError] on its [elem[0]]. *)
Theorem reducedelements_empty (modulus : Z) (self : t) :
  init 0 modulus = Ok self ->
  elements self = Ok [[]] ∧ reducedelements self = Raise IndexError.
Proof.
  intros Hinit. apply init_Ok in Hinit as (Hm & Hdiv & ->).
  unfold reducedelements, elements. cbn. split; reflexivity.
Qed.

Lemma reducedelements_empty_witness :
  elements (mk 0 3 0 3) = Ok [[]] ∧ reducedelements (mk 0 3 0 3) = Raise IndexError.
Proof. apply (reducedelements_empty 3 (mk 0 3 0 3)). reflexivity. Defined.

Lemma difference_body_cases (p : Z) (v0 v1 : list Z) (i : Z) :
  0 <= i ->
  (exists y, (a ← getitem v0 i; b ← getitem v1 i; Ok (field_sub p a b)) = Ok y
             ∧ (0 < p -> 0 <= y < p))
  ∨ (a ← getitem v0 i; b ← getitem v1 i; Ok (field_sub p a b)) = Raise IndexError.
Proof.
  intros Hi.
  destruct (Z.lt_ge_cases i (Z.of_nat (length v0))) as [H0|H0].
  - rewrite (getitem_nth v0 i 0) by lia. run.
    destruct (Z.lt_ge_cases i (Z.of_nat (length v1))) as [H1|H1].
    + rewrite (getitem_nth v1 i 0) by lia. cbn [bind]. left. eexists.
      split; [reflexivity|]. intros Hp. unfold field_sub. apply Z.mod_pos_bound, Hp.
    + rewrite (getitem_out_of_range v1 i) by exact H1. right. reflexivity.
  - rewrite (getitem_out_of_range v0 i) by exact H0. right. reflexivity.
Qed.

Lemma difference_tuple_balanced (size modulus : Z) (self : t) (x y : value) (d : list Z) :
  init size modulus = Ok self ->
  difference self x y = Ok (Tuple d) -> Spec.balanced size modulus d.
Proof.
  intros Hinit Hd. pose proof (init_Ok _ _ _ Hinit) as (Hm & Hdiv & Hself).
  destruct x as [|v0]; [discriminate|]. destruct y as [|v1]; [discriminate|].
  cbn [difference] in Hd.
  destruct (for_each _ (range (BalancedVectors.size self))) as [dif|e] eqn:Hdif;
    run; [|discriminate].
  destruct (is_balanced self (Tuple dif)) as [[|]|e] eqn:Hb; cbn [bind] in Hd;
    try discriminate.
  injection Hd as <-. apply (is_balanced_iff size modulus self dif Hinit); [|exact Hb].
  apply for_each_In in Hdif as [_ Hin]. apply Forall_forall. intros z Hz.
  apply Hin in Hz as (i & Hi & Hz). apply In_range in Hi. subst self. cbn [fld] in Hz.
  destruct (difference_body_cases modulus v0 v1 i) as [(z' & Hz' & Hr)|Hr]; [lia| |].
  - run. rewrite Hz' in Hz. injection Hz as <-. apply Hr. lia.
  - run. rewrite Hr in Hz. discriminate.
Qed.

(** X5. Whatever it is given, [difference] never returns an unbalanced tuple:
    a tuple it returns is a balanced vector of the configuration. *)
Theorem difference_closed (size modulus : Z) (self : t) (x y : value) (d : list Z) :
  init size modulus = Ok self ->
  difference self x y = Ok (Tuple d) -> Spec.balanced size modulus d.
Proof. apply difference_tuple_balanced. Qed.

Lemma difference_closed_witness : Spec.balanced 4 2 [0; 1; 1; 0].
Proof.
  apply (difference_closed 4 2 (mk 4 2 2 2) (Tuple [0; 0; 1; 1]) (Tuple [0; 1; 0; 1]));
    reflexivity.
Defined.

(** X6. On two tuples of which one has fewer than [size] components,
    [difference] raises [IndexError]. *)
Theorem difference_short (size modulus : Z) (self : t) (v0 v1 : list Z) :
  init size modulus = Ok self ->
  Z.of_nat (length v0) < size ∨ Z.of_nat (length v1) < size ->
  difference self (Tuple v0) (Tuple v1) = Raise IndexError.
Proof.
  intros Hinit Hshort. apply init_Ok in Hinit as (Hm & Hdiv & ->).
  cbn [difference BalancedVectors.size fld].
  rewrite (for_each_raise _ _ IndexError); [reflexivity| |].
  - intros i Hi. apply In_range in Hi.
    destruct (difference_body_cases modulus v0 v1 i) as [(y & Hy & _)|Hr]; [lia| |].
    + left. exists y. exact Hy.
    + right. exact Hr.
  - exists (Z.min (Z.of_nat (length v0)) (Z.of_nat (length v1))). split.
    + apply In_range. lia.
    + destruct (Z.le_ge_cases (Z.of_nat (length v0)) (Z.of_nat (length v1))) as [Hle|Hle].
      * rewrite Z.min_l by exact Hle. rewrite (getitem_out_of_range v0) by lia. reflexivity.
      * rewrite Z.min_r by lia.
        destruct (Z.eq_dec (Z.of_nat (length v0)) (Z.of_nat (length v1))) as [Heq|Hne].
        -- rewrite (getitem_out_of_range v0) by lia. reflexivity.
        -- rewrite (getitem_nth v0 _ 0) by lia. run.
           rewrite (getitem_out_of_range v1) by lia. reflexivity.
Qed.

Lemma difference_short_witness :
  difference (mk 4 2 2 2) (Tuple [0; 1; 0; 1]) (Tuple [0; 1; 1]) = Raise IndexError.
Proof.
  apply (difference_short 4 2 (mk 4 2 2 2) [0; 1; 0; 1] [0; 1; 1]); [reflexivity|].
  right. cbn. lia.
Defined.

Lemma getitem_take {A : Type} (l : list A) (n : nat) (i : Z) :
  0 <= i < Z.of_nat n -> (n <= length l)%nat ->
  getitem (take n l) i = getitem l i.
Proof.
  intros Hi Hn. unfold getitem.
  destruct (Z.ltb_spec i 0) as [|_]; [lia|].
  destruct (Z.ltb_spec i 0) as [|_]; [lia|].
  rewrite lookup_take_lt by lia. reflexivity.
Qed.

(** X7. [difference] reads the first [size] components only: components
    beyond them change nothing. *)
Theorem difference_ignores_tail (size modulus : Z) (self : t) (v0 v1 : list Z) :
  init size modulus = Ok self ->
  size <= Z.of_nat (length v0) -> size <= Z.of_nat (length v1) ->
  difference self (Tuple v0) (Tuple v1)
  = difference self (Tuple (take (Z.to_nat size) v0)) (Tuple (take (Z.to_nat size) v1)).
Proof.
  intros Hinit H0 H1. apply init_Ok in Hinit as (Hm & Hdiv & ->).
  cbn [difference BalancedVectors.size fld]. f_equal. apply for_each_ext.
  intros i Hi. apply In_range in Hi.
  rewrite !getitem_take by lia. reflexivity.
Qed.

Lemma difference_ignores_tail_witness :
  difference (mk 4 2 2 2) (Tuple [0; 0; 1; 1; 1]) (Tuple [0; 1; 0; 1; 0; 0])
  = difference (mk 4 2 2 2) (Tuple (take (Z.to_nat 4) [0; 0; 1; 1; 1]))
                            (Tuple (take (Z.to_nat 4) [0; 1; 0; 1; 0; 0])).
Proof.
  apply (difference_ignores_tail 4 2 (mk 4 2 2 2)); [reflexivity|cbn; lia|cbn; lia].
Defined.

Lemma zip_with_sub_sub (p : Z) (v x : list Z) :
  0 < p -> length v = length x -> Forall (fun a => 0 <= a < p) x ->
  zip_with (field_sub p) v (zip_with (field_sub p) v x) = x.
Proof.
  intros Hp. revert x. induction v as [|a v IH]; intros [|b x] Hlen Hall;
    try discriminate; [reflexivity|].
  inversion Hall as [|? ? Hb Hx]; subst. cbn [zip_with]. f_equal.
  - unfold field_sub. rewrite Zminus_mod_idemp_r.
    replace (a - (a - b)) with b by lia. apply Z.mod_small, Hb.
  - apply IH; [cbn [length] in Hlen; lia|exact Hx].
Qed.

Lemma difference_twice (size modulus : Z) (self : t) (v x d : list Z) :
  init size modulus = Ok self ->
  Z.of_nat (length v) = size -> Spec.balanced size modulus x ->
  difference self (Tuple v) (Tuple x) = Ok (Tuple d) ->
  difference self (Tuple v) (Tuple d) = Ok (Tuple x).
Proof.
  intros Hinit Hv Hx Hd. pose proof (init_Ok _ _ _ Hinit) as (Hm & _ & _).
  pose proof Hx as (Hlen & Hring & _).
  destruct (difference_cases size modulus self v x Hinit Hv Hlen) as [Hbal Hunb].
  cbn zeta in Hbal, Hunb.
  assert (Hdx : d = zip_with (field_sub modulus) v x).
  { destruct (is_balanced self (Tuple (zip_with (field_sub modulus) v x)))
      as [[|]|e] eqn:Hb.
    - apply (is_balanced_iff size modulus self _ Hinit) in Hb.
      + rewrite (Hbal Hb) in Hd. congruence.
      + apply zip_with_sub_range. lia.
    - rewrite Hunb in Hd; [discriminate|]. intros Hb'.
      apply (is_balanced_iff size modulus self _ Hinit) in Hb'; [congruence|].
      apply zip_with_sub_range. lia.
    - discriminate. }
  subst d.
  destruct (difference_cases size modulus self v (zip_with (field_sub modulus) v x)
              Hinit Hv) as [Hbal' _].
  { rewrite length_zip_with. lia. }
  cbn zeta in Hbal'. rewrite zip_with_sub_sub in Hbal' by (try assumption; lia).
  apply Hbal', Hx.
Qed.

(** X8. Differencing twice against the same vector gives the balanced vector
    back: if [difference(vec, x)] is a tuple [d], then [difference(vec, d)] is
    [x]. *)
Theorem difference_involutive (size modulus : Z) (self : t) (v x d : list Z) :
  init size modulus = Ok self ->
  Z.of_nat (length v) = size -> Spec.balanced size modulus x ->
  difference self (Tuple v) (Tuple x) = Ok (Tuple d) ->
  difference self (Tuple v) (Tuple d) = Ok (Tuple x).
Proof. apply difference_twice. Qed.

Lemma difference_involutive_witness :
  difference (mk 4 2 2 2) (Tuple [0; 0; 1; 1]) (Tuple [0; 1; 1; 0])
  = Ok (Tuple [0; 1; 0; 1]).
Proof.
  apply (difference_involutive 4 2 (mk 4 2 2 2) [0; 0; 1; 1] [0; 1; 0; 1] [0; 1; 1; 0]);
    [reflexivity|reflexivity| |reflexivity].
  split; [reflexivity|]. split; [repeat constructor; lia|].
  intros a Ha. assert (a = 0 ∨ a = 1) as [-> | ->] by lia; reflexivity.
Defined.

Lemma difference_defined (size modulus : Z) (self : t) (v0 v1 : list Z) :
  init size modulus = Ok self ->
  Z.of_nat (length v0) = size -> Z.of_nat (length v1) = size ->
  exists y, difference self (Tuple v0) (Tuple v1) = Ok y.
Proof.
  intros Hinit H0 H1. apply init_Ok in Hinit as (_ & _ & ->).
  cbn [difference]. rewrite difference_vector by assumption. run.
  cbn [is_balanced bind]. destruct (is_balanced_loop _ _ _); eexists; reflexivity.
Qed.

(** The pairs of a run of [action] or [reducedaction] over [elems]. *)
Lemma action_pairs (size modulus : Z) (self : t) (v : list Z) (elems : list (list Z)) :
  init size modulus = Ok self -> Z.of_nat (length v) = size ->
  (forall x, In x elems -> Spec.balanced size modulus x) ->
  exists pairs,
    for_each (fun x => d ← difference self (Tuple v) (Tuple x); Ok (x, d)) elems
    = Ok pairs ∧
    forall x y, In (x, y) pairs <->
      In x elems ∧ difference self (Tuple v) (Tuple x) = Ok y.
Proof.
  intros Hinit Hv Hbal.
  destruct (for_each_total
              (fun x => d ← difference self (Tuple v) (Tuple x); Ok (x, d)) elems)
    as [pairs Hpairs].
  { intros x Hx. apply Hbal in Hx as (Hlen & _).
    destruct (difference_defined size modulus self v x Hinit Hv Hlen) as [y ->].
    eexists. reflexivity. }
  exists pairs. split; [exact Hpairs|]. apply for_each_In in Hpairs as [_ Hin].
  intros x y. rewrite Hin. split.
  - intros (x' & Hx' & Hxy).
    destruct (difference self (Tuple v) (Tuple x')) as [d|e] eqn:Hd; run;
      [|discriminate].
    injection Hxy as <- <-. auto.
  - intros [Hx Hd]. exists x. rewrite Hd. auto.
Qed.

(** X9. The action of a vector pairs the balanced vectors off: when
    [action(vec)] sends [x] to a tuple [d], it sends [d] to [x]. *)
Theorem action_symmetric (size modulus : Z) (self : t) (v : list Z) :
  init size modulus = Ok self -> Z.of_nat (length v) = size ->
  exists pairs, action self (Tuple v) = Ok pairs ∧
    forall x d, In (x, Tuple d) pairs -> In (d, Tuple x) pairs.
Proof.
  intros Hinit Hv.
  destruct (elements_members size modulus self Hinit) as (elems & He & _ & Hin); [lia|].
  destruct (action_pairs size modulus self v elems Hinit Hv) as (pairs & Hp & Hpairs).
  { intros x Hx. apply Hin, Hx. }
  exists pairs. unfold action. rewrite He. split; [exact Hp|].
  intros x d Hxd. apply Hpairs in Hxd as [Hx Hd]. apply Hin in Hx. apply Hpairs. split.
  - apply Hin. apply (difference_tuple_balanced size modulus self _ _ d Hinit Hd).
  - apply (difference_twice size modulus self v x d Hinit Hv Hx Hd).
Qed.

Lemma action_symmetric_witness :
  exists pairs, action (mk 4 2 2 2) (Tuple [0; 0; 1; 1]) = Ok pairs ∧
    forall x d, In (x, Tuple d) pairs -> In (d, Tuple x) pairs.
Proof. apply (action_symmetric 4 2 (mk 4 2 2 2) [0; 0; 1; 1]); reflexivity. Defined.

(** X10. For a positive size, [reducedaction(vec)] yields exactly the pairs of
    [action(vec)] whose first vector begins with [0]. *)
Theorem reducedaction_restricts (size modulus : Z) (self : t) (v : list Z) :
  init size modulus = Ok self -> 0 < size -> Z.of_nat (length v) = size ->
  exists pairs rpairs,
    action self (Tuple v) = Ok pairs ∧ reducedaction self (Tuple v) = Ok rpairs ∧
    forall x y, In (x, y) rpairs <-> In (x, y) pairs ∧ head x = Some 0.
Proof.
  intros Hinit Hsize Hv.
  destruct (elements_members size modulus self Hinit) as (elems & He & _ & Hin); [lia|].
  destruct (reducedelements_members size modulus self Hinit Hsize)
    as (relems & Hre & _ & Hrin).
  destruct (action_pairs size modulus self v elems Hinit Hv) as (pairs & Hp & Hpairs).
  { intros x Hx. apply Hin, Hx. }
  destruct (action_pairs size modulus self v relems Hinit Hv) as (rpairs & Hrp & Hrpairs).
  { intros x Hx. apply Hrin, Hx. }
  exists pairs, rpairs. unfold action, reducedaction. rewrite He, Hre.
  split; [exact Hp|]. split; [exact Hrp|].
  intros x y. rewrite Hrpairs, Hpairs, Hrin, Hin. tauto.
Qed.

Lemma reducedaction_restricts_witness :
  exists pairs rpairs,
    action (mk 4 2 2 2) (Tuple [0; 0; 1; 1]) = Ok pairs ∧
    reducedaction (mk 4 2 2 2) (Tuple [0; 0; 1; 1]) = Ok rpairs ∧
    forall x y, In (x, y) rpairs <-> In (x, y) pairs ∧ head x = Some 0.
Proof.
  apply (reducedaction_restricts 4 2 (mk 4 2 2 2) [0; 0; 1; 1]);
    [reflexivity|lia|reflexivity].
Defined.

Lemma Tuple_neq (a b : list Z) : a ≠ b -> Tuple a ≠ Tuple b.
Proof. intros Hne [= Heq]. contradiction. Qed.

(** Once [vec2] is the unbalanced element the loop of [pairact] never
    ends. *)
Lemma pairact_loop_absorbed (fuel : nat) (self : t) (v0 v1 : list Z) :
  pairact_loop fuel self (Tuple v0) (Tuple v1) Unbalanced = Ok None.
Proof.
  induction fuel as [|fuel IH]; cbn [pairact_loop]; [reflexivity|].
  rewrite bool_decide_eq_true_2 by discriminate. cbn [difference]. run.
  rewrite IH. reflexivity.
Qed.

(** X11. [pairact(vec0, vec1)] on a balanced [vec1] ends within two tests of
    its loop: it reports a degenerate action when the difference is not
    balanced, prints nothing when the difference is [vec1] itself, and
    otherwise prints the difference once. *)
Theorem pairact_terminates (size modulus : Z) (self : t) (v0 v1 : list Z) (fuel : nat) :
  init size modulus = Ok self ->
  Z.of_nat (length v0) = size -> Spec.balanced size modulus v1 ->
  (2 <= fuel)%nat ->
  let d := zip_with (field_sub modulus) v0 v1 in
  (¬ Spec.balanced size modulus d ->
   pairact fuel self (Tuple v0) (Tuple v1) = Ok (Some Degenerate)) ∧
  (Spec.balanced size modulus d -> d = v1 ->
   pairact fuel self (Tuple v0) (Tuple v1) = Ok (Some (Printed []))) ∧
  (Spec.balanced size modulus d -> d ≠ v1 ->
   pairact fuel self (Tuple v0) (Tuple v1) = Ok (Some (Printed [Tuple d]))).
Proof.
  intros Hinit H0 Hv1 Hfuel d. pose proof Hv1 as (H1 & _ & _).
  destruct (difference_cases size modulus self v0 v1 Hinit H0 H1) as [Hbal Hunb].
  fold d in Hbal, Hunb. unfold pairact.
  destruct fuel as [|[|fuel]]; [lia|lia|]. split; [|split].
  - intros Hd. rewrite (Hunb Hd). reflexivity.
  - intros Hd Heq. rewrite (Hbal Hd). run. cbn [pairact_loop].
    rewrite Heq. rewrite bool_decide_eq_false_2 by (intros Hne; apply Hne; reflexivity).
    reflexivity.
  - intros Hd Hne. pose proof (Hbal Hd) as Hdiff. rewrite Hdiff. run.
    cbn [pairact_loop]. rewrite bool_decide_eq_true_2 by (apply Tuple_neq, Hne).
    rewrite (difference_twice size modulus self v0 v1 d Hinit H0 Hv1 Hdiff).
    run.
    rewrite bool_decide_eq_false_2 by (intros Hne'; apply Hne'; reflexivity).
    reflexivity.
Qed.

Lemma pairact_terminates_witness :
  pairact 2 (mk 4 2 2 2) (Tuple [0; 0; 1; 1]) (Tuple [0; 1; 0; 1])
  = Ok (Some (Printed [Tuple [0; 1; 1; 0]])).
Proof.
  destruct (pairact_terminates 4 2 (mk 4 2 2 2) [0; 0; 1; 1] [0; 1; 0; 1] 2)
    as (_ & _ & Hprint); [reflexivity|reflexivity| |lia|].
  - split; [reflexivity|]. split; [repeat constructor; lia|].
    intros a Ha. assert (a = 0 ∨ a = 1) as [-> | ->] by lia; reflexivity.
  - apply Hprint; [exact balanced_0_1_1_0|discriminate].
Defined.

(** X12. [pairact(vec0, vec1)] never returns when [vec1] is a sequence of
    ring elements of length [size] that is not balanced while
    [vec0 - vec1] is: the loop reaches the unbalanced element and stays on
    it, so no number of iterations ends it. *)
Theorem pairact_diverges (size modulus : Z) (self : t) (v0 v1 : list Z) :
  init size modulus = Ok self ->
  Z.of_nat (length v0) = size -> Z.of_nat (length v1) = size ->
  Forall (fun x => 0 <= x < modulus) v1 ->
  ¬ Spec.balanced size modulus v1 ->
  Spec.balanced size modulus (zip_with (field_sub modulus) v0 v1) ->
  forall fuel, pairact fuel self (Tuple v0) (Tuple v1) = Ok None.
Proof.
  intros Hinit H0 H1 Hring Hv1 Hd fuel.
  pose proof (init_Ok _ _ _ Hinit) as (Hm & _ & _).
  set (d := zip_with (field_sub modulus) v0 v1) in *.
  destruct (difference_cases size modulus self v0 v1 Hinit H0 H1) as [Hbal _].
  fold d in Hbal. unfold pairact. rewrite (Hbal Hd). run.
  destruct fuel as [|fuel]; cbn [pairact_loop]; [reflexivity|].
  assert (Hne : d ≠ v1) by (intros Heq; apply Hv1; rewrite <- Heq; exact Hd).
  rewrite bool_decide_eq_true_2 by (apply Tuple_neq, Hne).
  destruct (difference_cases size modulus self v0 d Hinit H0) as [_ Hunb].
  { unfold d. rewrite length_zip_with. lia. }
  cbn zeta in Hunb. unfold d in Hunb at 1.
  rewrite zip_with_sub_sub in Hunb by (try assumption; lia).
  rewrite (Hunb Hv1). run. rewrite pairact_loop_absorbed. reflexivity.
Qed.

Lemma pairact_diverges_witness :
  pairact 1000 (mk 4 2 2 2) (Tuple [0; 0; 1; 1]) (Tuple [0; 0; 0; 0]) = Ok None.
Proof.
  apply (pairact_diverges 4 2 (mk 4 2 2 2) [0; 0; 1; 1] [0; 0; 0; 0]);
    [reflexivity|reflexivity|reflexivity| | |].
  - repeat constructor; lia.
  - intros (_ & _ & Hcount). specialize (Hcount 1 ltac:(lia)). discriminate.
  - exact balanced_0_0_1_1.
Defined.

End BalancedVectorsMore.

(** ** More of Fuglede: the row test *)
Module RowDifference.
Import Fuglede.

Lemma fill_counters (n : nat) (a : Z) (counters : gmap Z Z) (k : Z) :
  foldl (fun counters i => <[i := 0]> counters) counters (seqZ a (Z.of_nat n)) !! k
  = if bool_decide (a <= k < a + Z.of_nat n) then Some 0 else counters !! k.
Proof.
  revert a counters. induction n as [|n IH]; intros a counters.
  - cbn. rewrite bool_decide_eq_false_2 by lia. reflexivity.
  - rewrite seqZ_cons by lia. cbn [foldl].
    replace (Z.pred (Z.of_nat (S n))) with (Z.of_nat n) by lia. rewrite IH.
    destruct (decide (Z.succ a <= k < Z.succ a + Z.of_nat n)) as [Hk|Hk].
    + rewrite !bool_decide_eq_true_2 by lia. reflexivity.
    + rewrite (bool_decide_eq_false_2 _ Hk).
      destruct (decide (k = a)) as [->|Hne].
      * rewrite lookup_insert_eq, bool_decide_eq_true_2 by lia. reflexivity.
      * rewrite lookup_insert_ne by congruence.
        rewrite bool_decide_eq_false_2 by lia. reflexivity.
Qed.

(** After the first loop the keys are [0 .. modulus - 1], all at zero. *)
Lemma zero_counters_lookup (p k : Z) :
  zero_counters p !! k = if bool_decide (0 <= k < p) then Some 0 else None.
Proof.
  unfold zero_counters, range. destruct (Z.le_gt_cases 0 p) as [Hp|Hp].
  - rewrite <- (Z2Nat.id p) at 1 by exact Hp. rewrite fill_counters.
    rewrite Z2Nat.id by exact Hp. rewrite lookup_empty. reflexivity.
  - rewrite seqZ_nil by lia. cbn. rewrite lookup_empty.
    rewrite bool_decide_eq_false_2 by lia. reflexivity.
Qed.

Lemma count_cons (x : Z) (l : list Z) (k : Z) :
  count (x :: l) k = (if decide (x = k) then 1 else 0) + count l k.
Proof.
  unfold count. cbn [count_occ]. destruct (Z.eq_dec x k) as [Heq|Hne].
  - rewrite decide_True by exact Heq. lia.
  - rewrite decide_False by exact Hne. lia.
Qed.

(** The second loop, when every entry is a valid position: each counter has
    grown by the number of times its key was found. *)
Lemma tally_counts (p : Z) (dv todo : list Z) (counters : gmap Z Z) :
  (forall k, 0 <= k < p -> is_Some (counters !! k)) ->
  Forall (fun x => 0 <= x < p) dv ->
  Forall (fun e => 0 <= e < Z.of_nat (length dv)) todo ->
  exists counters',
    tally dv todo counters = Ok counters' ∧
    forall k, counters' !! k
      = (fun n => n + count (map (fun e => nth (Z.to_nat e) dv 0) todo) k)
          <$> counters !! k.
Proof.
  intros Hkeys Hdv Htodo. revert counters Hkeys.
  induction Htodo as [|e todo He Htodo IH]; intros counters Hkeys; cbn [tally map].
  - exists counters. split; [reflexivity|]. intros k.
    destruct (counters !! k) as [n|]; cbn; [f_equal; unfold count; cbn; lia|reflexivity].
  - rewrite (BalancedVectorsFacts.getitem_nth dv e 0) by exact He. run.
    set (value := nth (Z.to_nat e) dv 0).
    assert (Hvalue : 0 <= value < p).
    { rewrite Forall_forall in Hdv. apply Hdv, nth_In. lia. }
    destruct (Hkeys value Hvalue) as [n Hn]. unfold dict_get. rewrite Hn. cbn [bind].
    destruct (IH (<[value := n + 1]> counters)) as (counters' & Ht & Hc).
    { intros k Hk. destruct (decide (k = value)) as [->|Hne].
      - rewrite lookup_insert_eq. eauto.
      - rewrite lookup_insert_ne by congruence. apply Hkeys, Hk. }
    exists counters'. split; [exact Ht|]. intros k. rewrite Hc, count_cons.
    destruct (decide (value = k)) as [<-|Hne].
    + rewrite lookup_insert_eq, Hn. cbn. f_equal. lia.
    + rewrite lookup_insert_ne by exact Hne.
      destruct (counters !! k); cbn; [f_equal; lia|reflexivity].
Qed.

(** The second loop raises [IndexError] at the first entry that is not a
    position of the difference vector. *)
Lemma tally_index_error (p : Z) (dv todo : list Z) (counters : gmap Z Z) :
  (forall k, 0 <= k < p -> is_Some (counters !! k)) ->
  Forall (fun x => 0 <= x < p) dv ->
  Forall (fun e => 0 <= e) todo ->
  Exists (fun e => Z.of_nat (length dv) <= e) todo ->
  tally dv todo counters = Raise IndexError.
Proof.
  intros Hkeys Hdv Htodo. revert counters Hkeys.
  induction Htodo as [|e todo He Htodo IH]; intros counters Hkeys Hex;
    [inversion Hex|]. cbn [tally].
  destruct (Z.le_gt_cases (Z.of_nat (length dv)) e) as [Hout|Hin].
  - rewrite getitem_out_of_range by exact Hout. reflexivity.
  - rewrite (BalancedVectorsFacts.getitem_nth dv e 0) by lia. run.
    set (value := nth (Z.to_nat e) dv 0).
    assert (Hvalue : 0 <= value < p).
    { rewrite Forall_forall in Hdv. apply Hdv, nth_In. lia. }
    destruct (Hkeys value Hvalue) as [n Hn]. unfold dict_get. rewrite Hn. cbn [bind].
    apply IH.
    + intros k Hk. destruct (decide (k = value)) as [->|Hne].
      * rewrite lookup_insert_eq. eauto.
      * rewrite lookup_insert_ne by congruence. apply Hkeys, Hk.
    + inversion Hex as [? ? Hhead|? ? Htail]; subst; [lia|exact Htail].
Qed.

(** The third loop compares neighbouring counters. *)
Lemma counters_equal_adjacent (p : Z) (counters : gmap Z Z) (idx : list Z) :
  (forall k, 0 <= k < p -> is_Some (counters !! k)) ->
  Forall (fun i => 0 <= i < p - 1) idx ->
  exists b, counters_equal counters idx = Ok b ∧
    (b = true <-> forall i, In i idx -> counters !! i = counters !! (i + 1)).
Proof.
  intros Hkeys. induction 1 as [|i idx Hi Hidx IH]; cbn [counters_equal].
  - exists true. split; [reflexivity|]. split; [intros _ i []|reflexivity].
  - destruct (Hkeys i) as [a Ha]; [lia|]. destruct (Hkeys (i + 1)) as [b Hb]; [lia|].
    unfold dict_get. rewrite Ha, Hb. run.
    destruct (Z.eqb_spec a b) as [->|Hne]; cbn [negb].
    + destruct IH as (r & Hr & Hiff). exists r. split; [exact Hr|].
      rewrite Hiff. split.
      * intros Hall j [<-|Hj]; [congruence|apply Hall, Hj].
      * intros Hall j Hj. apply Hall. right. exact Hj.
    + exists false. split; [reflexivity|]. split; [discriminate|].
      intros Hall. specialize (Hall i (or_introl eq_refl)). congruence.
Qed.

Lemma adjacent_all_equal (p : Z) (f : Z -> Z) :
  (forall i, 0 <= i < p - 1 -> f i = f (i + 1)) <->
  (forall x y, 0 <= x < p -> 0 <= y < p -> f x = f y).
Proof.
  split.
  - intros Hadj.
    assert (H0 : forall x, 0 <= x -> x < p -> f x = f 0).
    { intros x Hx. pattern x. apply natlike_ind; [reflexivity| |exact Hx].
      intros z Hz IHz Hlt. rewrite <- IHz by lia.
      symmetry. replace (Z.succ z) with (z + 1) by lia. apply Hadj. lia. }
    intros x y Hx Hy. rewrite (H0 x), (H0 y) by lia. reflexivity.
  - intros Hall i Hi. apply Hall; lia.
Qed.

Lemma row_difference_start (self : t) (p : Z) (r0 r1 : list Z) :
  modulus self = p -> length r0 = length r1 ->
  row_difference self (Vec p r0) (Vec p r1)
  = counters ← tally (zip_with (field_sub p) r0 r1) (zip_with (field_sub p) r0 r1)
                     (zero_counters p);
    counters_equal counters (range (p - 1)).
Proof.
  intros Hm Hlen. unfold row_difference, vector_sub. cbn [vbase coords].
  rewrite !bool_decide_eq_true_2 by auto. cbn [andb]. run. rewrite Hm. reflexivity.
Qed.

Lemma zero_counters_keys (p k : Z) : 0 <= k < p -> is_Some (zero_counters p !! k).
Proof.
  intros Hk. rewrite zero_counters_lookup, bool_decide_eq_true_2 by exact Hk. eauto.
Qed.

(** X13. What [row_difference] computes on two rows over the field of the
    receiver, at least [modulus] long: it answers [True] exactly when the
    vector made of the entries found at the positions named by the entries of
    the difference has equal tallies (not the difference itself), and it
    raises nothing. *)
Theorem row_difference_tallies (self : t) (p : Z) (r0 r1 : list Z) :
  modulus self = p -> 0 < p ->
  length r0 = length r1 -> p <= Z.of_nat (length r0) ->
  exists b, row_difference self (Vec p r0) (Vec p r1) = Ok b ∧
    (b = true <->
     Spec.equal_tallies p (Spec.indexed_by_itself (zip_with (field_sub p) r0 r1))).
Proof.
  intros Hm Hp Hlen Hlong. rewrite (row_difference_start self p r0 r1 Hm Hlen).
  set (d := zip_with (field_sub p) r0 r1).
  assert (Hd : Forall (fun x => 0 <= x < p) d).
  { apply BalancedVectorsFacts.zip_with_sub_range, Hp. }
  assert (Hdlen : length d = length r0).
  { unfold d. rewrite length_zip_with. lia. }
  destruct (tally_counts p d d (zero_counters p)) as (counters & Ht & Hc).
  { apply zero_counters_keys. }
  { exact Hd. }
  { eapply Forall_impl; [|exact Hd]. intros e He. cbn beta in He. lia. }
  rewrite Ht. run.
  assert (Hlookup : forall k, 0 <= k < p ->
            counters !! k = Some (count (Spec.indexed_by_itself d) k)).
  { intros k Hk. rewrite Hc, zero_counters_lookup, bool_decide_eq_true_2 by exact Hk.
    cbn. reflexivity. }
  destruct (counters_equal_adjacent p counters (range (p - 1))) as (b & Hb & Hiff).
  { intros k Hk. rewrite Hlookup by exact Hk. eauto. }
  { apply Forall_forall. intros i Hi. apply In_range in Hi. exact Hi. }
  exists b. split; [exact Hb|]. rewrite Hiff. unfold Spec.equal_tallies.
  rewrite <- (adjacent_all_equal p (count (Spec.indexed_by_itself d))). split.
  - intros Hall i Hi. specialize (Hall i (proj2 (In_range _ _) Hi)).
    rewrite !Hlookup in Hall by lia. congruence.
  - intros Hall i Hi. apply In_range in Hi. rewrite !Hlookup by lia.
    f_equal. apply Hall, Hi.
Qed.

Lemma row_difference_tallies_witness :
  exists b, row_difference (mk 2 3 2 []) (Vec 2 [0; 0; 1; 1]) (Vec 2 [0; 0; 0; 0]) = Ok b ∧
    (b = true <->
     Spec.equal_tallies 2
       (Spec.indexed_by_itself (zip_with (field_sub 2) [0; 0; 1; 1] [0; 0; 0; 0]))).
Proof.
  apply (row_difference_tallies (mk 2 3 2 []) 2 [0; 0; 1; 1] [0; 0; 0; 0]);
    [reflexivity|lia|reflexivity|cbn; lia].
Defined.

(** X14. [row_difference] raises [IndexError] whenever an entry of the
    difference of the two rows is not a position of the rows, as happens when
    the rows are shorter than the modulus. *)
Theorem row_difference_index_error (self : t) (p : Z) (r0 r1 : list Z) :
  modulus self = p -> 0 < p -> length r0 = length r1 ->
  Exists (fun e => Z.of_nat (length r0) <= e) (zip_with (field_sub p) r0 r1) ->
  row_difference self (Vec p r0) (Vec p r1) = Raise IndexError.
Proof.
  intros Hm Hp Hlen Hex. rewrite (row_difference_start self p r0 r1 Hm Hlen).
  set (d := zip_with (field_sub p) r0 r1) in *.
  assert (Hd : Forall (fun x => 0 <= x < p) d).
  { apply BalancedVectorsFacts.zip_with_sub_range, Hp. }
  assert (Hdlen : length d = length r0).
  { unfold d. rewrite length_zip_with. lia. }
  rewrite (tally_index_error p d d (zero_counters p)); [reflexivity| | | |].
  - apply zero_counters_keys.
  - exact Hd.
  - eapply Forall_impl; [|exact Hd]. intros e He. cbn beta in He. lia.
  - rewrite Hdlen. exact Hex.
Qed.

Lemma row_difference_index_error_witness :
  row_difference (mk 3 1 3 []) (Vec 3 [0; 0]) (Vec 3 [0; 1]) = Raise IndexError.
Proof.
  apply (row_difference_index_error (mk 3 1 3 []) 3 [0; 0] [0; 1]);
    [reflexivity|lia|reflexivity|].
  right. left. apply Z.leb_le. reflexivity.
Defined.

End RowDifference.

(** ** More of Fuglede: the generators and the search *)
Module FugledeMore.
Import Fuglede FugledeFacts.

Lemma increasing_all (size : nat) (idx : nat -> result nat) :
  Spec.increasing_columns size idx ->
  forall i j, (i < j < size)%nat ->
    exists a b, idx i = Ok a ∧ idx j = Ok b ∧ (a < b)%nat.
Proof.
  intros Hinc i j. induction j as [|j IH]; intros Hij; [lia|].
  destruct (Hinc j) as (b' & b & Hb' & Hb & Hlt); [lia|].
  replace (j + 1)%nat with (S j) in Hb by lia.
  destruct (decide (i = j)) as [->|Hne].
  - exists b', b. auto.
  - destruct IH as (a & b'' & Ha & Hb'' & Hlt'); [lia|].
    rewrite Hb' in Hb''. injection Hb'' as <-.
    exists a, b. split; [exact Ha|]. split; [exact Hb|]. lia.
Qed.

Lemma dot_range (p : Z) (u v : list Z) : 0 < p -> 0 <= dot p u v < p.
Proof.
  intros Hp. unfold dot.
  assert (Hacc : forall l acc, 0 <= acc < p ->
            0 <= foldl (fun acc xy => (acc + fst xy * snd xy) mod p) acc l < p).
  { induction l as [|xy l IH]; intros acc Hacc; cbn [foldl]; [exact Hacc|].
    apply IH. apply Z.mod_pos_bound, Hp. }
  apply Hacc. lia.
Qed.

Section Search.
Context {sage : Matrices}.

Lemma subsets_all_pass (self : t) (size : nat) :
  (size <= 1)%nat ->
  subsets self size = Ok (MatrixSpace_list (fld self) (dimension self) size).
Proof.
  intros Hsize. unfold subsets.
  induction (MatrixSpace_list (fld self) (dimension self) size) as [|M l IH];
    cbn [subsets_loop]; [reflexivity|].
  replace (size - 1)%nat with 0%nat by lia. cbn [seq subsets_passing].
  run. rewrite IH. reflexivity.
Qed.

(** X15. With [size] at most 1 there is no pair of columns to compare:
    [subsets(size)] yields every matrix of the space, in the order of the
    space. *)
Theorem subsets_small (self : t) (size : nat) :
  (size <= 1)%nat ->
  subsets self size = Ok (MatrixSpace_list (fld self) (dimension self) size).
Proof. apply subsets_all_pass. Qed.

(** X16. The log-Hadamard matrix of two subsets of one space, of [size] and
    [size'] points, is computed without error and is a [size] by [size']
    matrix over the field. *)
Theorem loghadamard_shape (self : t) (p : Z) (d size size' : nat) (E B : matrix) :
  0 < p -> in_matrix_space p d size E -> in_matrix_space p d size' B ->
  exists H0, loghadamard self E B = Ok H0 ∧ in_matrix_space p size size' H0.
Proof.
  intros Hp (HEb & HEr & HEc & HEl & HE) (HBb & HBr & HBc & HBl & HB).
  unfold loghadamard, matrix_mul, transpose. cbn [base nrows ncols entries].
  rewrite !bool_decide_eq_true_2 by congruence. cbn [andb].
  eexists. split; [reflexivity|]. unfold in_matrix_space.
  cbn [base nrows ncols entries]. rewrite !length_map, length_seq.
  repeat split; try assumption. apply Forall_forall. intros v Hv.
  apply in_map_iff in Hv as (a & <- & _). rewrite !length_map, length_seq.
  split; [exact HBc|]. apply Forall_forall. intros x Hx.
  apply in_map_iff in Hx as (b & <- & _). rewrite HEb. apply dot_range, Hp.
Qed.

Lemma first_failing_None (self : t) (H0 : matrix) (pairs : list (Z * Z)) :
  first_failing self H0 pairs = Ok None <->
  forall i j, In (i, j) pairs -> i ≠ j ->
    exists row0 row1, row H0 i = Ok row0 ∧ row H0 j = Ok row1 ∧
                      row_difference self row0 row1 = Ok true.
Proof.
  induction pairs as [|[i j] pairs IH]; cbn [first_failing].
  - split; [intros _ i j []|reflexivity].
  - destruct (decide (i = j)) as [Heq|Hne].
    + rewrite bool_decide_eq_false_2 by (intros Hn; apply Hn, Heq). rewrite IH. split.
      * intros Hall i' j' [[= <- <-]|Hin] Hij; [contradiction|apply Hall; assumption].
      * intros Hall i' j' Hin. apply Hall. right. exact Hin.
    + rewrite bool_decide_eq_true_2 by exact Hne. split.
      * intros Hrun.
        destruct (row H0 i) as [row0|] eqn:H0i; run; [|discriminate].
        destruct (row H0 j) as [row1|] eqn:H0j; cbn [bind] in Hrun; [|discriminate].
        destruct (row_difference self row0 row1) as [[|]|] eqn:Hrd; cbn [bind] in Hrun.
        -- intros i' j' [[= <- <-]|Hin] Hij.
           ++ exists row0, row1. auto.
           ++ apply (proj1 IH Hrun); assumption.
        -- destruct (vector_sub row0 row1); discriminate.
        -- discriminate.
      * intros Hall.
        destruct (Hall i j (or_introl eq_refl) Hne) as (row0 & row1 & -> & -> & Hrd).
        run. rewrite Hrd. cbn [bind]. apply IH.
        intros i' j' Hin. apply Hall. right. exact Hin.
Qed.

Lemma first_failing_Some (self : t) (H0 : matrix) (pairs : list (Z * Z)) (l : line) :
  first_failing self H0 pairs = Ok (Some l) ->
  exists row0 row1 d, l = Failing row0 row1 d.
Proof.
  induction pairs as [|[i j] pairs IH]; cbn [first_failing]; [discriminate|].
  destruct (bool_decide (i ≠ j)); [|exact IH].
  destruct (row H0 i) as [row0|]; run; [|discriminate].
  destruct (row H0 j) as [row1|]; cbn [bind]; [|discriminate].
  destruct (row_difference self row0 row1) as [[|]|]; cbn [bind];
    [exact IH| |discriminate].
  destruct (vector_sub row0 row1) as [d|]; cbn [bind]; [|discriminate].
  intros [= <-]. eauto.
Qed.

Lemma In_index_pairs (size : nat) (i j : Z) :
  In (i, j) (index_pairs size) <->
  0 <= i < Z.of_nat size ∧ 0 <= j < Z.of_nat size.
Proof.
  unfold index_pairs. rewrite in_flat_map. split.
  - intros (i' & Hi' & Hin). apply in_map_iff in Hin as (j' & [= <- <-] & Hj').
    apply In_range in Hi', Hj'. auto.
  - intros [Hi Hj]. exists i. split; [apply In_range, Hi|].
    apply in_map_iff. exists j. split; [reflexivity|apply In_range, Hj].
Qed.

(** A pair of subsets is reported exactly when no ordered pair of distinct
    rows of its log-Hadamard matrix fails. *)
Lemma test_pair_Found (self : t) (size : nat) (E B E' B' H0 : matrix) :
  test_pair self size E B = Ok (Found E' B' H0) <->
  E' = E ∧ B' = B ∧ loghadamard self E B = Ok H0 ∧
  forall i j, 0 <= i < Z.of_nat size -> 0 <= j < Z.of_nat size -> i ≠ j ->
    exists row0 row1, row H0 i = Ok row0 ∧ row H0 j = Ok row1 ∧
                      row_difference self row0 row1 = Ok true.
Proof.
  unfold test_pair. split.
  - destruct (loghadamard self E B) as [H1|] eqn:HH; run; [|discriminate].
    destruct (first_failing self H1 (index_pairs size)) as [[l|]|] eqn:Hff;
      cbn [bind]; [| |discriminate].
    + intros [= ->]. apply first_failing_Some in Hff as (? & ? & ? & [=]).
    + intros [= <- <- <-]. repeat split; try reflexivity.
      intros i j Hi Hj. apply (proj1 (first_failing_None self H1 _) Hff).
      apply In_index_pairs. auto.
  - intros (-> & -> & -> & Hall). run.
    rewrite (proj2 (first_failing_None self H0 (index_pairs size))); [reflexivity|].
    intros i j Hin. apply In_index_pairs in Hin as [Hi Hj]. apply Hall; assumption.
Qed.

Lemma runtest_loop_lines (S self : t) (size : nat) (seconds firsts : list matrix)
      (lines : list line) :
  secondsets S size = Ok seconds ->
  runtest_loop S self size firsts = Ok lines ->
  length lines = (length firsts * length seconds)%nat ∧
  forall l, In l lines <->
    exists E B, In E firsts ∧ In B seconds ∧ test_pair self size E B = Ok l.
Proof.
  intros Hsec. revert lines. induction firsts as [|E firsts IH]; intros lines;
    cbn [runtest_loop].
  - intros [= <-]. split; [reflexivity|]. intros l. split; [intros []|].
    intros (E & B & [] & _).
  - rewrite Hsec. run.
    destruct (for_each (test_pair self size E) seconds) as [ls|] eqn:Hls;
      cbn [bind]; [|discriminate].
    destruct (runtest_loop S self size firsts) as [ls'|] eqn:Hls';
      cbn [bind]; [|discriminate].
    intros [= <-]. destruct (IH ls' eq_refl) as [Hlen Hin].
    apply for_each_In in Hls as [Hlen0 Hin0]. split.
    + rewrite length_app, Hlen, Hlen0. cbn [length]. lia.
    + intros l. rewrite in_app_iff, Hin, Hin0. split.
      * intros [(B & HB & Ht)|(E' & B & HE' & HB & Ht)].
        -- exists E, B. split; [left; reflexivity|auto].
        -- exists E', B. split; [right; exact HE'|auto].
      * intros (E' & B & [<-|HE'] & HB & Ht); [left; eauto|right; eauto].
Qed.

(** X17. When [runtest(size)] ends without an exception it prints one line
    for each pair of a first-type and a second-type subset of [S], and reports
    [(E, B, H)] exactly for the pairs whose log-Hadamard matrix [H] has no
    ordered pair of distinct rows failing [row_difference]. *)
Theorem runtest_reports (S self : t) (size : nat)
        (firsts seconds : list matrix) (lines : list line) :
  firstsets S size = Ok firsts -> secondsets S size = Ok seconds ->
  runtest S self size = Ok lines ->
  length lines = (length firsts * length seconds)%nat ∧
  forall E B H0, In (Found E B H0) lines <->
    In E firsts ∧ In B seconds ∧ loghadamard self E B = Ok H0 ∧
    forall i j, 0 <= i < Z.of_nat size -> 0 <= j < Z.of_nat size -> i ≠ j ->
      exists row0 row1, row H0 i = Ok row0 ∧ row H0 j = Ok row1 ∧
                        row_difference self row0 row1 = Ok true.
Proof.
  intros Hfirst Hsec Hrun. unfold runtest in Hrun. rewrite Hfirst in Hrun. run.
  destruct (runtest_loop_lines S self size seconds firsts lines Hsec Hrun) as [Hlen Hin].
  split; [exact Hlen|]. intros E B H0. rewrite Hin. split.
  - intros (E' & B' & HE' & HB' & Ht). apply test_pair_Found in Ht as (-> & -> & HH & Hall).
    auto.
  - intros (HE & HB & HH & Hall). exists E, B. split; [exact HE|]. split; [exact HB|].
    apply test_pair_Found. auto.
Qed.

End Search.

Section Canonical.
Context {sage : Matrices} {laws : MatricesLaws}.

(** X18. [firstsets(0)] and [secondsets(0)] raise [IndexError]: the one
    matrix with no column has no first column to test. *)
Theorem firstsets_no_column (modulus : Z) (dimension : nat) (self : t) :
  init modulus dimension = Ok self ->
  firstsets self 0 = Raise IndexError ∧ secondsets self 0 = Raise IndexError.
Proof.
  intros Hinit. apply subset_pairs_init_Ok in Hinit as (Hm & ->).
  unfold firstsets, secondsets. rewrite subsets_all_pass by lia. run.
  cbn [fld Fuglede.dimension].
  assert (Hin : In (Mat modulus dimension 0 (repeat [] dimension))
                   (MatrixSpace_list modulus dimension 0)).
  { apply MatrixSpace_complete. unfold in_matrix_space. cbn [base nrows ncols entries].
    rewrite repeat_length. repeat split; try reflexivity.
    apply Forall_forall. intros v Hv. apply repeat_spec in Hv as ->.
    split; [reflexivity|constructor]. }
  destruct (MatrixSpace_list modulus dimension 0) as [|M l] eqn:Hspace; [destruct Hin|].
  assert (HM : ncols M = 0%nat).
  { assert (Hsound : in_matrix_space modulus dimension 0 M).
    { apply MatrixSpace_sound. rewrite Hspace. left. reflexivity. }
    destruct Hsound as (_ & _ & Hc & _). exact Hc. }
  assert (Hraise : first_column_zero M = Raise IndexError).
  { unfold first_column_zero, columns, transpose. cbn [entries]. rewrite HM. reflexivity. }
  cbn [keep_if]. unfold is_first. rewrite Hraise. split; reflexivity.
Qed.

(** X19. The columns of a matrix yielded by [subsets(size)] stand at strictly
    increasing positions among the points of the space, any two of them and
    not only neighbours; so they are pairwise different points. *)
Theorem subsets_distinct_columns (modulus : Z) (dimension size : nat) (self : t)
        (l : list matrix) (M : matrix) (i j : nat) :
  init modulus dimension = Ok self -> subsets self size = Ok l -> In M l ->
  (i < j < size)%nat ->
  (exists a b, column_index self M i = Ok a ∧ column_index self M j = Ok b ∧ (a < b)%nat) ∧
  row (transpose M) (Z.of_nat i) ≠ row (transpose M) (Z.of_nat j).
Proof.
  intros Hinit Hl HM Hij.
  destruct (subsets_spec modulus dimension size self Hinit) as (l' & Hl' & Hin).
  rewrite Hl in Hl'. injection Hl' as <-. apply Hin in HM as [_ Hinc].
  destruct (increasing_all size _ Hinc i j Hij) as (a & b & Ha & Hb & Hlt).
  split; [exists a, b; auto|]. intros Heq. unfold column_index in Ha, Hb.
  rewrite Heq in Ha. rewrite Ha in Hb. injection Hb as <-. lia.
Qed.

(** X20. For a positive [size], every subset [firstsets(size)] yields is
    also yielded by [secondsets(size)]. *)
Theorem firstsets_within_secondsets (modulus : Z) (dimension size : nat) (self : t) :
  init modulus dimension = Ok self -> (1 <= size)%nat ->
  exists l1 l2, firstsets self size = Ok l1 ∧ secondsets self size = Ok l2 ∧
    forall M, In M l1 -> In M l2.
Proof.
  intros Hinit Hsize.
  destruct (subsets_spec modulus dimension size self Hinit) as (l & Hl & Hin).
  assert (Hcols : forall M, In M l -> (0 < ncols M)%nat).
  { intros M HM. apply Hin in HM as [(_ & _ & Hc & _) _]. lia. }
  destruct (keep_if_spec (is_first self size) l) as (l1 & Hl1 & Hin1).
  { intros e He. unfold is_first.
    destruct (first_column_zero_spec e (Hcols e He)) as (b & -> & _). run.
    eexists. reflexivity. }
  destruct (keep_if_spec first_column_zero l) as (l2 & Hl2 & Hin2).
  { intros e He. destruct (first_column_zero_spec e (Hcols e He)) as (b & -> & _).
    eexists. reflexivity. }
  exists l1, l2. unfold firstsets, secondsets. rewrite Hl. run.
  split; [exact Hl1|]. split; [exact Hl2|].
  intros M HM. apply Hin1 in HM as [HM Hfirst]. apply Hin2. split; [exact HM|].
  unfold is_first in Hfirst.
  destruct (first_column_zero M) as [[|]|]; run; [reflexivity|discriminate|discriminate].
Qed.

End Canonical.
End FugledeMore.

(** ** The search on small spaces *)
Module FugledeMoreRuns.
Import Fuglede Demo.

(** X21. The loop of [runtest] over the pairs of rows stops at the first
    failing pair: the pairs after it are not examined, whatever they are. *)
Theorem inner_loop_breaks (self : t) (H0 : matrix)
        (before after : list (Z * Z)) (i j : Z) (row0 row1 d : vector) :
  first_failing self H0 before = Ok None ->
  i ≠ j -> row H0 i = Ok row0 -> row H0 j = Ok row1 ->
  row_difference self row0 row1 = Ok false -> vector_sub row0 row1 = Ok d ->
  first_failing self H0 (before ++ (i, j) :: after) = Ok (Some (Failing row0 row1 d)).
Proof. apply FugledeFacts.first_failing_short_circuit. Qed.

Lemma inner_loop_breaks_witness :
  first_failing (mk 2 2 2 []) (Mat 2 2 2 [[0; 0]; [0; 0]])
                ([(0, 0)] ++ (0, 1) :: [(1, 0); (5, 7)])
  = Ok (Some (Failing (Vec 2 [0; 0]) (Vec 2 [0; 0]) (Vec 2 [0; 0]))).
Proof.
  apply (inner_loop_breaks (mk 2 2 2 []) (Mat 2 2 2 [[0; 0]; [0; 0]])
           [(0, 0)] [(1, 0); (5, 7)] 0 1);
    [reflexivity|lia|reflexivity|reflexivity|vm_compute; reflexivity|reflexivity].
Defined.

(** X22. [runtest] reads its receiver for the modulus only: two receivers
    with one modulus print the same lines, those of the subsets of [S]. *)
Theorem runtest_same_for_receivers {sage : Matrices} (S self self' : t) (size : nat) :
  modulus self = modulus self' -> runtest S self size = runtest S self' size.
Proof. apply FugledeFacts.runtest_receiver. Qed.

Lemma runtest_same_for_receivers_witness :
  runtest (mk 2 3 2 (Reference.matrices 2 1 3)) (mk 2 2 2 (Reference.matrices 2 1 2)) 3
  = runtest (mk 2 3 2 (Reference.matrices 2 1 3)) (mk 2 3 2 (Reference.matrices 2 1 3)) 3.
Proof.
  apply (runtest_same_for_receivers (mk 2 3 2 (Reference.matrices 2 1 3))).
  reflexivity.
Defined.

Lemma subsets_small_witness :
  subsets (mk 2 1 2 (Reference.matrices 2 1 1)) 1 = Ok (Reference.matrices 2 1 1).
Proof.
  exact (FugledeMore.subsets_small (mk 2 1 2 (Reference.matrices 2 1 1)) 1 (le_n 1)).
Defined.

Lemma E4_in_space : in_matrix_space 2 3 4 E4.
Proof.
  unfold in_matrix_space, E4. cbn [base nrows ncols entries].
  repeat split; repeat constructor; lia.
Qed.

Lemma B4_in_space : in_matrix_space 2 3 4 B4.
Proof.
  unfold in_matrix_space, B4. cbn [base nrows ncols entries].
  repeat split; repeat constructor; lia.
Qed.

Lemma loghadamard_shape_witness :
  exists H0, loghadamard (mk 2 3 2 []) E4 B4 = Ok H0 ∧ in_matrix_space 2 4 4 H0.
Proof.
  apply (FugledeMore.loghadamard_shape (mk 2 3 2 []) 2 3 4 4 E4 B4);
    [lia|exact E4_in_space|exact B4_in_space].
Defined.

Lemma runtest_reports_witness :
  exists firsts seconds lines,
    firstsets (mk 2 2 2 (Reference.matrices 2 1 2)) 3 = Ok firsts ∧
    secondsets (mk 2 2 2 (Reference.matrices 2 1 2)) 3 = Ok seconds ∧
    length lines = (length firsts * length seconds)%nat ∧
    forall E B H0, In (Found E B H0) lines <->
      In E firsts ∧ In B seconds ∧
      loghadamard (mk 2 2 2 (Reference.matrices 2 1 2)) E B = Ok H0 ∧
      forall i j, 0 <= i < Z.of_nat 3 -> 0 <= j < Z.of_nat 3 -> i ≠ j ->
        exists row0 row1, row H0 i = Ok row0 ∧ row H0 j = Ok row1 ∧
          row_difference (mk 2 2 2 (Reference.matrices 2 1 2)) row0 row1 = Ok true.
Proof.
  eexists. eexists. eexists.
  split; [vm_compute; reflexivity|]. split; [vm_compute; reflexivity|].
  apply (FugledeMore.runtest_reports (mk 2 2 2 (Reference.matrices 2 1 2))
           (mk 2 2 2 (Reference.matrices 2 1 2)) 3);
    vm_compute; reflexivity.
Defined.

Lemma firstsets_no_column_witness :
  firstsets (mk 2 1 2 (Reference.matrices 2 1 1)) 0 = Raise IndexError ∧
  secondsets (mk 2 1 2 (Reference.matrices 2 1 1)) 0 = Raise IndexError.
Proof.
  apply (FugledeMore.firstsets_no_column 2 1 (mk 2 1 2 (Reference.matrices 2 1 1))).
  reflexivity.
Defined.

Lemma subsets_distinct_columns_witness :
  (exists a b,
     column_index (mk 2 1 2 (Reference.matrices 2 1 1)) (Mat 2 1 2 [[0; 1]]) 0 = Ok a ∧
     column_index (mk 2 1 2 (Reference.matrices 2 1 1)) (Mat 2 1 2 [[0; 1]]) 1 = Ok b ∧
     (a < b)%nat) ∧
  row (transpose (Mat 2 1 2 [[0; 1]])) (Z.of_nat 0)
  ≠ row (transpose (Mat 2 1 2 [[0; 1]])) (Z.of_nat 1).
Proof.
  apply (FugledeMore.subsets_distinct_columns 2 1 2
           (mk 2 1 2 (Reference.matrices 2 1 1)) [Mat 2 1 2 [[0; 1]]]);
    [reflexivity|vm_compute; reflexivity|left; reflexivity|lia].
Defined.

Lemma firstsets_within_secondsets_witness :
  exists l1 l2,
    firstsets (mk 2 1 2 (Reference.matrices 2 1 1)) 2 = Ok l1 ∧
    secondsets (mk 2 1 2 (Reference.matrices 2 1 1)) 2 = Ok l2 ∧
    forall M, In M l1 -> In M l2.
Proof.
  apply (FugledeMore.firstsets_within_secondsets 2 1 2
           (mk 2 1 2 (Reference.matrices 2 1 1))); [reflexivity|lia].
Defined.

End FugledeMoreRuns.

(** ** BalancedVectors: the two orders of a difference, and negative sizes *)
Module BalancedVectorsSymmetry.
Import BalancedVectors BalancedVectorsFacts BalancedVectorsMore.

Lemma neg_neg (p a : Z) : 0 <= a < p -> field_sub p 0 (field_sub p 0 a) = a.
Proof.
  intros Ha. unfold field_sub. rewrite Zminus_mod_idemp_r.
  replace (0 - (0 - a)) with a by lia. apply Z.mod_small, Ha.
Qed.

Lemma zip_with_sub_swap (p : Z) (v0 v1 : list Z) :
  zip_with (field_sub p) v1 v0 = map (field_sub p 0) (zip_with (field_sub p) v0 v1).
Proof.
  revert v1. induction v0 as [|a v0 IH]; intros [|b v1]; cbn [zip_with map];
    try reflexivity.
  rewrite IH. f_equal. unfold field_sub. rewrite Zminus_mod_idemp_r. f_equal. lia.
Qed.

Lemma count_neg (p : Z) (d : list Z) (x : Z) :
  0 < p -> Forall (fun a => 0 <= a < p) d -> 0 <= x < p ->
  count (map (field_sub p 0) d) x = count d (field_sub p 0 x).
Proof.
  intros Hp Hd Hx. induction Hd as [|a d Ha Hd IH]; [reflexivity|].
  cbn [map]. rewrite !RowDifference.count_cons, IH.
  destruct (decide (field_sub p 0 a = x)) as [Heq|Hne].
  - rewrite decide_True; [reflexivity|]. rewrite <- Heq, neg_neg by exact Ha. reflexivity.
  - rewrite decide_False; [reflexivity|]. intros Heq. apply Hne.
    rewrite Heq, neg_neg by exact Hx. reflexivity.
Qed.

Lemma balanced_neg (size p : Z) (d : list Z) :
  0 < p -> Spec.balanced size p d -> Spec.balanced size p (map (field_sub p 0) d).
Proof.
  intros Hp (Hlen & Hring & Hcount). split; [rewrite length_map; exact Hlen|]. split.
  - apply Forall_forall. intros x Hx. apply in_map_iff in Hx as (a & <- & _).
    unfold field_sub. apply Z.mod_pos_bound, Hp.
  - intros x Hx. rewrite count_neg by assumption. apply Hcount.
    unfold field_sub. apply Z.mod_pos_bound, Hp.
Qed.

(** X23. Swapping the two vectors negates the difference: [difference(v1, v0)]
    is the unbalanced element exactly when [difference(v0, v1)] is, and
    otherwise it is the component-wise negative of [difference(v0, v1)]. *)
Theorem difference_swapped (size modulus : Z) (self : t) (v0 v1 : list Z) :
  init size modulus = Ok self ->
  Z.of_nat (length v0) = size -> Z.of_nat (length v1) = size ->
  (difference self (Tuple v0) (Tuple v1) = Ok Unbalanced <->
   difference self (Tuple v1) (Tuple v0) = Ok Unbalanced) ∧
  (forall d, difference self (Tuple v0) (Tuple v1) = Ok (Tuple d) ->
     difference self (Tuple v1) (Tuple v0) = Ok (Tuple (map (field_sub modulus 0) d))).
Proof.
  intros Hinit H0 H1. pose proof (init_Ok _ _ _ Hinit) as (Hm & _ & _).
  destruct (difference_cases size modulus self v0 v1 Hinit H0 H1) as [Hbal Hunb].
  destruct (difference_cases size modulus self v1 v0 Hinit H1 H0) as [Hbal' Hunb'].
  cbn zeta in *. set (d := zip_with (field_sub modulus) v0 v1) in *.
  rewrite (zip_with_sub_swap modulus v0 v1) in Hbal', Hunb'. fold d in Hbal', Hunb'.
  assert (Hd : Forall (fun x => 0 <= x < modulus) d).
  { apply zip_with_sub_range. lia. }
  assert (Hback : Spec.balanced size modulus (map (field_sub modulus 0) d) ->
                  Spec.balanced size modulus d).
  { intros Hn. apply (balanced_neg size modulus) in Hn; [|lia].
    rewrite map_map in Hn. rewrite (map_ext_in _ id) in Hn; [rewrite map_id in Hn; exact Hn|].
    intros a Ha. rewrite Forall_forall in Hd. apply neg_neg, Hd, Ha. }
  destruct (is_balanced self (Tuple d)) as [[|]|e] eqn:Hb; [| |discriminate].
  - apply (is_balanced_iff size modulus self d Hinit Hd) in Hb.
    rewrite (Hbal Hb), (Hbal' (balanced_neg size modulus d ltac:(lia) Hb)).
    split; [split; discriminate|]. intros d' [= <-]. reflexivity.
  - assert (Hn : ¬ Spec.balanced size modulus d).
    { intros Hb'. apply (is_balanced_iff size modulus self d Hinit Hd) in Hb'. congruence. }
    rewrite (Hunb Hn), (Hunb' (fun H => Hn (Hback H))).
    split; [tauto|]. discriminate.
Qed.

Lemma difference_swapped_witness :
  (difference (mk 4 2 2 2) (Tuple [0; 0; 1; 1]) (Tuple [0; 1; 0; 1]) = Ok Unbalanced <->
   difference (mk 4 2 2 2) (Tuple [0; 1; 0; 1]) (Tuple [0; 0; 1; 1]) = Ok Unbalanced) ∧
  (forall d,
     difference (mk 4 2 2 2) (Tuple [0; 0; 1; 1]) (Tuple [0; 1; 0; 1]) = Ok (Tuple d) ->
     difference (mk 4 2 2 2) (Tuple [0; 1; 0; 1]) (Tuple [0; 0; 1; 1])
     = Ok (Tuple (map (field_sub 2 0) d))).
Proof.
  apply (difference_swapped 4 2 (mk 4 2 2 2) [0; 0; 1; 1] [0; 1; 0; 1]); reflexivity.
Defined.

(** X24. A negative multiple of the modulus passes the constructor, and then
    [elements()], [reducedelements()] and [action(vec)] raise [ValueError]:
    [permutations] refuses a negative length. *)
Theorem elements_negative_size (size modulus : Z) (self : t) (vec : value) :
  init size modulus = Ok self -> size < 0 ->
  elements self = Raise ValueError ∧ reducedelements self = Raise ValueError ∧
  action self vec = Raise ValueError ∧ reducedaction self vec = Raise ValueError.
Proof.
  intros Hinit Hsize. apply init_Ok in Hinit as (_ & _ & ->).
  assert (He : elements (mk size modulus (size / modulus) modulus) = Raise ValueError).
  { unfold elements, permutations. cbn [BalancedVectors.size].
    destruct (Z.ltb_spec size 0) as [_|]; [reflexivity|lia]. }
  unfold reducedaction, action, reducedelements. rewrite He. repeat split.
Qed.

Lemma elements_negative_size_witness :
  elements (mk (-4) 2 (-2) 2) = Raise ValueError ∧
  reducedelements (mk (-4) 2 (-2) 2) = Raise ValueError ∧
  action (mk (-4) 2 (-2) 2) Unbalanced = Raise ValueError ∧
  reducedaction (mk (-4) 2 (-2) 2) Unbalanced = Raise ValueError.
Proof.
  apply (elements_negative_size (-4) 2 (mk (-4) 2 (-2) 2) Unbalanced); [reflexivity|lia].
Defined.

End BalancedVectorsSymmetry.
